(** * wtf/PtrUtil.h: the exclusive-ownership pointer shim and [wrapUnique]

    The header has two layers.  The compile-time layer (type traits,
    deleter selection, static assertions, conditional enabling of
    overloads) is a functional program over C++ types; it is embedded as
    functions over a small universe of types whose results live in a
    [compile] monad.  The run-time layer (the [unique_ptr] class and the
    free functions around it) is embedded as a state-and-failure monad over
    a store of [unique_ptr] objects, the heap of managed values and a trace
    of the field stores and deleter calls the code performs. *)

From Stdlib Require Import NArith ZArith String List.
From stdpp Require Import base option gmap list.

Set Default Proof Using "Type".
Local Open Scope N_scope.

(** ** Compile-time layer: the type-trait shims (lines 32-87) *)

Module Traits.

(** The C++ types the templates are instantiated at. *)
Inductive ctype :=
| TNamed (name : string)        (* a class or a fundamental type *)
| TVoid
| TPtr (t : ctype)              (* [t*] *)
| TArr (t : ctype)              (* [t[]] *)
| TArrN (t : ctype) (n : N).    (* [t[n]] *)

(** The result of instantiating a template: the run-time entity it
    yields, or a diagnostic that stops the build. *)
Inductive compile (A : Type) :=
| Compiled (a : A)
| HardError (msg : string).
Arguments Compiled {A} a.
Arguments HardError {A} msg.

#[export] Instance compile_ret : MRet compile := @Compiled.
#[export] Instance compile_bind : MBind compile :=
  λ A B k c, match c with
             | Compiled a => k a
             | HardError msg => HardError msg
             end.

Definition static_assert (c : bool) (msg : string) : compile unit :=
  if c then Compiled tt else HardError msg.

(** A function template named in a call: substitution of the deduced
    arguments into its declaration either fails, which drops it from the
    candidate set without a diagnostic, or leaves a candidate whose
    definition is instantiated when it is selected. *)
Inductive overload (A : Type) :=
| Removed
| Candidate (body : compile A).
Arguments Removed {A}.
Arguments Candidate {A} body.

(** Lines 36-40: the two result types of [helper] and their sizes
    ([char x[2]] against an empty struct). *)
Inductive helper_result := True_ | False_.
Definition sizeof_helper_result (r : helper_result) : N :=
  match r with True_ => 2 | False_ => 1 end.

(** Lines 48-55: only the [true] specialisation has the member [type]. *)
Definition enable_if (b : bool) (T : ctype) : option ctype :=
  if b then Some T else None.

(** Lines 57-64. *)
Definition remove_extent (T : ctype) : ctype :=
  match T with
  | TArr t => t
  | TArrN t _ => t
  | _ => T
  end.

(** Lines 68-78. *)
Record integral_constant (A : Type) := IntegralConstant { value : A }.
Arguments IntegralConstant {A} value.
Arguments value {A} i.
Definition true_type : integral_constant bool := IntegralConstant true.
Definition false_type : integral_constant bool := IntegralConstant false.

(** Lines 80-87. *)
Definition is_array (T : ctype) : integral_constant bool :=
  match T with
  | TArr _ => true_type
  | TArrN _ _ => true_type
  | _ => false_type
  end.

Section language.
(** What the language decides from declarations that are not in this
    header: which implicit conversions exist. *)
Variable converts : ctype → ctype → bool.

(** Lines 39-40: overload resolution of [helper] on an argument of type
    [T1] picks [helper(T2 const &)] when [T1] converts to [T2], else the
    ellipsis overload. *)
Definition helper (T1 T2 : ctype) : helper_result :=
  if converts T1 T2 then True_ else False_.

(** Lines 43-45. *)
Definition is_convertible (T1 T2 : ctype) : bool :=
  sizeof_helper_result True_ =? sizeof_helper_result (helper T1 T2).

(** An initialisation or assignment of a [to] from a [from]. *)
Definition implicit_conversion (from to : ctype) : compile unit :=
  if converts from to then Compiled tt
  else HardError "invalid conversion between pointer types".
End language.

End Traits.

(** ** Run-time layer *)

Module Runtime.

(** A raw address ([PtrType], line 116); [nullptr] is address zero. *)
Definition addr := N.
Definition nullptr : addr := 0.

(** The identity of a [unique_ptr] object (what [this] and a
    [unique_ptr&] denote). *)
Definition loc := positive.

(** The class has one data member (line 170). *)
Record unique_ptr := UniquePtr { m_ptr : addr }.

(** Which delete-expression [OwnedPtrDeleter<T>::deletePtr] contains:
    [delete ptr] (line 94) or [delete[] ptr] (line 103). *)
Inductive delete_form := ScalarDelete | ArrayDelete.

Inductive event :=
| EvStore (this : loc) (a : addr)          (* an assignment [m_ptr = a] *)
| EvDeletePtr (f : delete_form) (a : addr) (* [deletePtr(a)] is entered *)
| EvDestroy (f : delete_form) (a : addr).  (* the value at [a] is destroyed *)

Record state := State {
  objs : gmap loc unique_ptr;   (* the live [unique_ptr] objects *)
  heap : gmap addr N;           (* the live managed values *)
  trace : list event
}.

(** [Aborted]: a [DCHECK] failed.  [Fault]: a member was called on an
    object that does not exist. *)
Inductive outcome (A : Type) :=
| Done (a : A) (s : state)
| Aborted
| Fault.
Arguments Done {A} a s.
Arguments Aborted {A}.
Arguments Fault {A}.

Definition M (A : Type) : Type := state → outcome A.

Definition ret {A} (a : A) : M A := λ s, Done a s.

Definition bind {A B} (m : M A) (k : A → M B) : M B :=
  λ s, match m s with
       | Done a s' => k a s'
       | Aborted => Aborted
       | Fault => Fault
       end.

#[export] Instance M_ret : MRet M := @ret.
#[export] Instance M_bind : MBind M := λ A B k m, bind m k.

(** Field access. *)
Definition load (this : loc) : M addr :=
  λ s, match objs s !! this with
       | Some o => Done (m_ptr o) s
       | None => Fault
       end.

Definition store (this : loc) (a : addr) : M unit :=
  λ s, match objs s !! this with
       | Some _ => Done tt (State (<[this := UniquePtr a]> (objs s)) (heap s)
                                  (trace s ++ [EvStore this a]))
       | None => Fault
       end.

Definition emit (e : event) : M unit :=
  λ s, Done tt (State (objs s) (heap s) (trace s ++ [e])).

(** A delete-expression: nothing on a null pointer, else the value is
    destroyed and its storage released. *)
Definition delete_expr (f : delete_form) (ptr : addr) : M unit :=
  if ptr =? nullptr then ret tt
  else λ s, Done tt (State (objs s) (delete ptr (heap s))
                           (trace s ++ [EvDestroy f ptr])).

(** Storage for a new [unique_ptr] object, with its member initialised. *)
Definition construct (a : addr) : M loc :=
  λ s, let l := fresh (dom (objs s)) in
       Done l (State (<[l := UniquePtr a]> (objs s)) (heap s) (trace s)).

(** End of an object's lifetime, after its destructor body. *)
Definition destruct_obj (this : loc) : M unit :=
  λ s, match objs s !! this with
       | Some _ => Done tt (State (delete this (objs s)) (heap s) (trace s))
       | None => Fault
       end.

(** What a returned [ValueType&] designates: the value [*a], or the
    element [a[i]] of the array at [a]. *)
Inductive lvalue :=
| Deref (a : addr)
| Subscript (a : addr) (i : Z).

Section unique_ptr.
(** Whether the build has debug checks on. *)
Variable debug : bool.
(** The delete-expression selected for the pointee type [T]. *)
Variable T_delete : delete_form.

(** Modelled from the spec: [DCHECK] is a macro of wtf/Assertions.h,
    which is not among the sources.  It is a debug-time assertion: it
    aborts when its condition is false, and is compiled out, condition
    included, of builds without debug checks. *)
Definition DCHECK (c : M bool) : M unit :=
  if debug then (b ← c; if b : bool then mret tt else λ _, Aborted)
  else mret tt.

(** [OwnedPtrDeleter<T>::deletePtr] (lines 91-95, 100-104). *)
Definition deletePtr (ptr : addr) : M unit :=
  emit (EvDeletePtr T_delete ptr) ;; delete_expr T_delete ptr.

(** Lines 118, 119, 152. *)
Definition unique_ptr_default : M loc := construct nullptr.
Definition unique_ptr_nullptr : M loc := construct nullptr.
Definition unique_ptr_explicit (ptr : addr) : M loc := construct ptr.

(** Line 129. *)
Definition get (this : loc) : M addr := load this.

(** Lines 174-179. *)
Definition reset (this : loc) (ptr : addr) : M unit :=
  p ← load this;
  store this ptr ;;
  deletePtr p.

(** Lines 181-186. *)
Definition release (this : loc) : M addr :=
  ptr ← load this;
  store this nullptr ;;
  mret ptr.

(** Lines 123-127; the object's lifetime ends after the body. *)
Definition unique_ptr_dtor (this : loc) : M unit :=
  p ← load this;
  deletePtr p ;;
  store this nullptr ;;
  destruct_obj this.

(** Lines 139, 140. *)
Definition operator_not (this : loc) : M bool :=
  p ← load this; mret (p =? nullptr).
Definition operator_bool (this : loc) : M bool :=
  p ← load this; mret (negb (p =? nullptr)).


(** Lines 196-199 and, at run time, lines 202-206. *)
Definition unique_ptr_move (o : loc) : M loc :=
  a ← release o; construct a.

(** Lines 208-216 and, at run time, lines 219-228. *)
Definition operator_assign_move (this o : loc) : M loc :=
  ptr ← load this;
  a ← release o;
  store this a ;;
  DCHECK (m ← load this; mret ((ptr =? nullptr) || negb (m =? ptr))) ;;
  deletePtr ptr ;;
  mret this.

(** Line 148: [std::swap(m_ptr, o.m_ptr)]. *)
Definition swap_member (this o : loc) : M unit :=
  tmp ← load this;
  b ← load o;
  store this b ;;
  store o tmp.

(** Lines 230-233. *)
Definition swap (a b : loc) : M unit := swap_member a b.

(** Lines 235-253. *)
Definition operator_eq_l (a : loc) (b : addr) : M bool :=
  x ← get a; mret (x =? b).
Definition operator_eq_r (a : addr) (b : loc) : M bool :=
  y ← get b; mret (a =? y).
Definition operator_ne_l (a : loc) (b : addr) : M bool :=
  x ← get a; mret (negb (x =? b)).
Definition operator_ne_r (a : addr) (b : loc) : M bool :=
  y ← get b; mret (negb (a =? y)).

(** Lines 255-258. *)
Definition getPtr (p : loc) : M addr := get p.

(** Lines 260-264; the returned prvalue initialises the result object
    directly. *)
Definition move (ptr : loc) : M loc :=
  a ← release ptr; unique_ptr_explicit a.

(** Lines 270-273; the returned prvalue initialises the result object
    directly. *)
Definition wrapUnique (ptr : addr) : M loc := unique_ptr_explicit ptr.

(** Line 134. *)
Definition operator_deref (this : loc) : M lvalue :=
  DCHECK (p ← load this; mret (negb (p =? nullptr))) ;;
  p ← load this;
  mret (Deref p).

(** Line 135. *)
Definition operator_arrow (this : loc) : M addr :=
  DCHECK (p ← load this; mret (negb (p =? nullptr))) ;;
  load this.

(** Lines 188-194, at run time. *)
Definition operator_index (this : loc) (i : Z) : M lvalue :=
  DCHECK (p ← load this; mret (negb (p =? nullptr))) ;;
  DCHECK (mret (0 <=? i)%Z) ;;
  p ← load this;
  mret (Subscript p i).

End unique_ptr.

(** Readings of a trace. *)
Definition destroys (a : addr) (e : event) : bool :=
  match e with EvDestroy _ b => b =? a | _ => false end.
Definition deleter_call (a : addr) (e : event) : bool :=
  match e with EvDeletePtr _ b => b =? a | _ => false end.
Definition is_destroy (e : event) : bool :=
  match e with EvDestroy _ _ => true | _ => false end.

Definition destroy_count (a : addr) (t : list event) : nat :=
  length (List.filter (destroys a) t).
Definition deleter_calls (a : addr) (t : list event) : nat :=
  length (List.filter (deleter_call a) t).
Definition no_destroy (t : list event) : Prop :=
  Forall (λ e, is_destroy e = false) t.

(** [holds s p a]: the object [p] is live in [s] and manages [a]. *)
Definition holds (s : state) (p : loc) (a : addr) : Prop :=
  objs s !! p = Some (UniquePtr a).

(** The condition the comment at lines 156-158 asks of a program: no two
    objects manage the same value. *)
Definition unique_owners (s : state) : Prop :=
  ∀ p q a, p ≠ q → holds s p a → holds s q a → a = nullptr.

(** Every managed address is that of a live value. *)
Definition owned_live (s : state) : Prop :=
  ∀ p a, holds s p a → a ≠ nullptr → is_Some (heap s !! a).

Definition well_owned (s : state) : Prop :=
  unique_owners s ∧ owned_live s.

(** No object manages [a]. *)
Definition unowned (s : state) (a : addr) : Prop :=
  ∀ q, ¬ holds s q a.

(** The object whose old field [q] holds after [swap(a, b)]. *)
Definition swapped (a b q : loc) : loc :=
  if decide (q = b) then a else if decide (q = a) then b else q.

End Runtime.

(** ** Instantiation of the members whose validity depends on the types *)

Module Templates.
Import Traits Runtime.

(** The static type of an operand of [==] or [!=]. *)
Inductive operand :=
| OpUniquePtr (T : ctype)   (* an lvalue of type [unique_ptr<T>] *)
| OpRawPtr (T : ctype).     (* a prvalue of type [T*] *)

(** Deduction of [U] from an argument against the parameter patterns
    [const unique_ptr<U>&] and [U*]. *)
Definition deduce_unique_ptr (o : operand) : option ctype :=
  match o with OpUniquePtr U => Some U | OpRawPtr _ => None end.
Definition deduce_raw_ptr (o : operand) : option ctype :=
  match o with OpRawPtr U => Some U | OpUniquePtr _ => None end.

Section instantiation.
(** The implicit conversions of the translation unit, the value of
    [sizeof(U* )] for each [U], and whether debug checks are on. *)
Variable converts : ctype → ctype → bool.
Variable sizeof_ptr : ctype → N.
Variable debug : bool.

(** Lines 159-163 and 164-168: [!sizeof(U* )] is true only when the
    size is zero. *)
Definition member_operator_eq (T U : ctype) : compile (loc → loc → M bool) :=
  static_assert (sizeof_ptr U =? 0) "unique_ptrs should never be equal" ;;
  mret (λ _ _, mret false).
Definition member_operator_ne (T U : ctype) : compile (loc → loc → M bool) :=
  static_assert (sizeof_ptr U =? 0) "unique_ptrs should never be equal" ;;
  mret (λ _ _, mret false).

(** What an expression [lhs == rhs] or [lhs != rhs] can resolve to. *)
Inductive comparison :=
| CmpMember (f : loc → loc → M bool)
| CmpLeft (f : loc → addr → M bool)
| CmpRight (f : addr → loc → M bool)
| CmpBuiltin.

(** The candidate set: the member template of the left operand's class
    (lines 159-168), the free templates (lines 235-253), each kept only
    when deduction of its template arguments succeeds, and the built-in
    comparison of two raw pointers.  [unique_ptr] has no implicit
    conversion to a pointer (line 140 is [explicit]), so nothing else is
    viable. *)
Definition candidates
    (member : ctype → ctype → compile (loc → loc → M bool))
    (free_l : loc → addr → M bool) (free_r : addr → loc → M bool)
    (lhs rhs : operand) : list (compile comparison) :=
  match deduce_unique_ptr lhs, deduce_unique_ptr rhs with
  | Some T, Some U => [f ← member T U; mret (CmpMember f)]
  | _, _ => []
  end ++
  match deduce_unique_ptr lhs, deduce_raw_ptr rhs with
  | Some _, Some _ => [mret (CmpLeft free_l)]
  | _, _ => []
  end ++
  match deduce_raw_ptr lhs, deduce_unique_ptr rhs with
  | Some _, Some _ => [mret (CmpRight free_r)]
  | _, _ => []
  end ++
  match deduce_raw_ptr lhs, deduce_raw_ptr rhs with
  | Some _, Some _ => [mret CmpBuiltin]
  | _, _ => []
  end.

Definition resolve (cs : list (compile comparison)) : compile comparison :=
  match cs with
  | [c] => c
  | [] => HardError "no match for operator"
  | _ => HardError "ambiguous overload for operator"
  end.

Definition compile_eq (lhs rhs : operand) : compile comparison :=
  resolve (candidates member_operator_eq operator_eq_l operator_eq_r lhs rhs).
Definition compile_ne (lhs rhs : operand) : compile comparison :=
  resolve (candidates member_operator_ne operator_ne_l operator_ne_r lhs rhs).

(** The size of a type, [None] for an incomplete one. *)
Variable sizeof : ctype → option N.

Definition sizeof_expr (T : ctype) : compile N :=
  match sizeof T with
  | Some n => mret n
  | None => HardError "invalid application of sizeof to an incomplete type"
  end.

(** Lines 89-110: the delete-expression in [OwnedPtrDeleter<T>::deletePtr].
    The specialisation for [T[n]] asserts and declares no member. *)
Definition OwnedPtrDeleter_deletePtr (T : ctype) : compile delete_form :=
  match T with
  | TArrN t _ =>
      n ← sizeof_expr t;
      static_assert (n <? 0) "do not use array with size as type" ;;
      HardError "no member named deletePtr"
  | TArr t =>
      n ← sizeof_expr t;
      static_assert (0 <? n) "type must be complete" ;;
      mret ArrayDelete
  | _ =>
      n ← sizeof_expr T;
      static_assert (0 <? n) "type must be complete" ;;
      mret ScalarDelete
  end.

(** [PtrType] of [unique_ptr<T>] (lines 115-116). *)
Definition PtrType (T : ctype) : ctype := TPtr (remove_extent T).

(** Lines 121 and 201-206: the second template parameter defaults to
    [enable_if<is_convertible<U*, T*>::value>::type]. *)
Definition converting_ctor (T U : ctype) : overload (loc → M loc) :=
  match enable_if (is_convertible converts (TPtr U) (TPtr T)) TVoid with
  | None => Removed
  | Some _ =>
      Candidate (
        implicit_conversion converts (PtrType U) (PtrType T) ;;
        static_assert (negb (value (is_array T)))
          "pointers to array must never be converted" ;;
        mret unique_ptr_move)
  end.

(** Lines 146 and 218-228: the declaration has the single template
    parameter [U]. *)
Definition converting_assign (T U : ctype) : overload (loc → loc → M loc) :=
  Candidate (
    static_assert (negb (value (is_array T)))
      "pointers to array must never be converted" ;;
    implicit_conversion converts (PtrType U) (PtrType T) ;;
    T_delete ← OwnedPtrDeleter_deletePtr T;
    mret (operator_assign_move debug T_delete)).

(** Lines 137 and 188-194: the static assertion of [operator[]]. *)
Definition operator_index_inst (T : ctype) : compile (loc → Z → M lvalue) :=
  static_assert (value (is_array T))
    "elements access is possible for arrays only" ;;
  mret (operator_index debug).

End instantiation.

End Templates.

(** ** Concrete inputs *)

Module Examples.
Import Traits Runtime Templates.

(** Three objects: two own a value, the third is empty. *)
Definition s0 : state :=
  State {[ 1%positive := UniquePtr 100;
           2%positive := UniquePtr 200;
           3%positive := UniquePtr nullptr ]}
        {[ 100 := 5; 200 := 7 ]}
        [].

(** A second owner of address 100 next to object 1: the aliasing the class
    is meant to exclude. *)
Definition s_aliased : state :=
  State {[ 1%positive := UniquePtr 100; 2%positive := UniquePtr 100 ]}
        {[ 100 := 5 ]}
        [].

(** A translation unit with [struct Base], [struct Derived : Base] and an
    unrelated [struct Other]. *)
Definition Base : ctype := TNamed "Base".
Definition Derived : ctype := TNamed "Derived".
Definition Other : ctype := TNamed "Other".

Fixpoint ctype_eqb (a b : ctype) : bool :=
  match a, b with
  | TNamed x, TNamed y => String.eqb x y
  | TVoid, TVoid => true
  | TPtr x, TPtr y => ctype_eqb x y
  | TArr x, TArr y => ctype_eqb x y
  | TArrN x n, TArrN y m => ctype_eqb x y && (n =? m)
  | _, _ => false
  end.

(** Implicit conversions there: identity, and derived-to-base on
    pointers. *)
Definition hierarchy (from to : ctype) : bool :=
  ctype_eqb from to ||
  (ctype_eqb from (TPtr Derived) && ctype_eqb to (TPtr Base)).

(** One owner, and a live value at 300 that no object manages yet. *)
Definition s_spare : state :=
  State {[ 1%positive := UniquePtr 100 ]}
        {[ 100 := 5; 300 := 9 ]}
        [].

Definition sizeof_ptr64 (_ : ctype) : N := 8.
Definition sizeof_complete (_ : ctype) : option N := Some 4.

End Examples.

(** ** Properties *)

Import Traits Runtime Templates Examples.

(** *** Running the monad *)

Lemma bind_done {A B} (m : M A) (k : A → M B) s a s' :
  m s = Done a s' → (m ≫= k) s = k a s'.
Proof. intros H. unfold mbind, M_bind, bind. by rewrite H. Qed.

Lemma bind_aborted {A B} (m : M A) (k : A → M B) s :
  m s = Aborted → (m ≫= k) s = Aborted.
Proof. intros H. unfold mbind, M_bind, bind. by rewrite H. Qed.

Lemma load_holds s p a : holds s p a → load p s = Done a s.
Proof. unfold holds, load. by intros ->. Qed.

Lemma store_holds s p a b :
  holds s p a →
  store p b s = Done tt (State (<[p := UniquePtr b]> (objs s)) (heap s)
                               (trace s ++ [EvStore p b])).
Proof. unfold holds, store. by intros ->. Qed.

Lemma holds_insert_eq m h t p a : holds (State (<[p := UniquePtr a]> m) h t) p a.
Proof. unfold holds; simpl. apply lookup_insert_eq. Qed.

Lemma holds_insert_ne m h t p q a b :
  p ≠ q → m !! q = Some (UniquePtr b) →
  holds (State (<[p := UniquePtr a]> m) h t) q b.
Proof. intros Hne Hq. unfold holds; simpl. by rewrite lookup_insert_ne. Qed.

Lemma holds_inj s p a b : holds s p a → holds s p b → a = b.
Proof. unfold holds. congruence. Qed.

(** Each operation as a function of the state it starts in. *)

Lemma release_run s p a :
  holds s p a →
  release p s = Done a (State (<[p := UniquePtr nullptr]> (objs s)) (heap s)
                              (trace s ++ [EvStore p nullptr])).
Proof.
  intros H. unfold release.
  rewrite (bind_done _ _ _ _ _ (load_holds _ _ _ H)).
  by rewrite (bind_done _ _ _ _ _ (store_holds _ _ _ nullptr H)).
Qed.

Lemma deletePtr_run f a s :
  deletePtr f a s =
  Done tt (State (objs s)
                 (if a =? nullptr then heap s else delete a (heap s))
                 (trace s ++ EvDeletePtr f a ::
                    (if a =? nullptr then [] else [EvDestroy f a]))).
Proof.
  unfold deletePtr, delete_expr, emit, mbind, M_bind, bind, ret. simpl.
  destruct (a =? nullptr); simpl; [done|].
  by rewrite <- app_assoc.
Qed.

Lemma reset_run f s p a b :
  holds s p a →
  reset f p b s =
  Done tt (State (<[p := UniquePtr b]> (objs s))
                 (if a =? nullptr then heap s else delete a (heap s))
                 (trace s ++ EvStore p b :: EvDeletePtr f a ::
                    (if a =? nullptr then [] else [EvDestroy f a]))).
Proof.
  intros H. unfold reset.
  rewrite (bind_done _ _ _ _ _ (load_holds _ _ _ H)).
  rewrite (bind_done _ _ _ _ _ (store_holds _ _ _ b H)).
  rewrite deletePtr_run. simpl. by rewrite <- app_assoc.
Qed.

Lemma unique_ptr_dtor_run f s p a :
  holds s p a →
  unique_ptr_dtor f p s =
  Done tt (State (delete p (objs s))
                 (if a =? nullptr then heap s else delete a (heap s))
                 (trace s ++ EvDeletePtr f a ::
                    (if a =? nullptr then [] else [EvDestroy f a])
                    ++ [EvStore p nullptr])).
Proof.
  intros H. unfold unique_ptr_dtor.
  rewrite (bind_done _ _ _ _ _ (load_holds _ _ _ H)).
  rewrite (bind_done _ _ _ _ _ (deletePtr_run f a s)).
  erewrite bind_done; [|by apply (store_holds _ p a nullptr)].
  unfold destruct_obj; simpl. rewrite lookup_insert_eq.
  f_equal. f_equal.
  - by rewrite delete_insert_eq.
  - by rewrite <- app_assoc.
Qed.

Lemma DCHECK_off c s : DCHECK false c s = Done tt s.
Proof. done. Qed.

Lemma DCHECK_on c s b :
  c s = Done b s →
  DCHECK true c s = if b then Done tt s else Aborted.
Proof.
  intros H. unfold DCHECK. rewrite (bind_done _ _ _ _ _ H). by destruct b.
Qed.

(** The condition of the [DCHECK] at line 212, read after the store. *)
Lemma assign_condition_run m h t d y ptr :
  (v ← load d; mret ((ptr =? nullptr) || negb (v =? ptr)))
    (State (<[d := UniquePtr y]> m) h t)
  = Done ((ptr =? nullptr) || negb (y =? ptr))
         (State (<[d := UniquePtr y]> m) h t).
Proof.
  by rewrite (bind_done _ _ _ _ _ (load_holds _ _ _ (holds_insert_eq m h t d y))).
Qed.

Lemma operator_assign_move_run dbg f s d o x y :
  d ≠ o → holds s d x → holds s o y →
  (dbg = true → x = nullptr ∨ y ≠ x) →
  operator_assign_move dbg f d o s =
  Done d (State (<[d := UniquePtr y]> (<[o := UniquePtr nullptr]> (objs s)))
                (if x =? nullptr then heap s else delete x (heap s))
                (trace s ++ EvStore o nullptr :: EvStore d y ::
                   EvDeletePtr f x ::
                   (if x =? nullptr then [] else [EvDestroy f x]))).
Proof.
  intros Hne Hd Ho Hchk. unfold operator_assign_move.
  rewrite (bind_done _ _ _ _ _ (load_holds _ _ _ Hd)).
  rewrite (bind_done _ _ _ _ _ (release_run _ _ _ Ho)).
  erewrite bind_done;
    [|by apply (store_holds _ d x y), holds_insert_ne].
  simpl. erewrite bind_done; cycle 1.
  { destruct dbg; [|apply DCHECK_off].
    rewrite (DCHECK_on _ _ _ (assign_condition_run _ _ _ _ _ _)).
    destruct (Hchk eq_refl) as [-> | Hyx]; [done|].
    apply N.eqb_neq in Hyx. rewrite Hyx. by rewrite orb_true_r. }
  rewrite (bind_done _ _ _ _ _ (deletePtr_run f x _)). simpl.
  unfold mret, M_ret, ret. f_equal. f_equal.
  by rewrite <- !app_assoc.
Qed.

Lemma operator_assign_move_aliased f s d o x :
  d ≠ o → holds s d x → holds s o x → x ≠ nullptr →
  operator_assign_move true f d o s = Aborted.
Proof.
  intros Hne Hd Ho Hx. unfold operator_assign_move.
  rewrite (bind_done _ _ _ _ _ (load_holds _ _ _ Hd)).
  rewrite (bind_done _ _ _ _ _ (release_run _ _ _ Ho)).
  erewrite bind_done;
    [|by apply (store_holds _ d x x), holds_insert_ne].
  apply bind_aborted.
  rewrite (DCHECK_on _ _ _ (assign_condition_run _ _ _ _ _ _)).
  apply N.eqb_neq in Hx. by rewrite Hx, N.eqb_refl.
Qed.

Lemma swap_member_run s a b x y :
  holds s a x → holds s b y →
  swap_member a b s =
  Done tt (State (<[b := UniquePtr x]> (<[a := UniquePtr y]> (objs s)))
                 (heap s)
                 (trace s ++ [EvStore a y; EvStore b x])).
Proof.
  intros Ha Hb. unfold swap_member.
  rewrite (bind_done _ _ _ _ _ (load_holds _ _ _ Ha)).
  rewrite (bind_done _ _ _ _ _ (load_holds _ _ _ Hb)).
  rewrite (bind_done _ _ _ _ _ (store_holds _ _ _ y Ha)).
  destruct (decide (a = b)) as [-> | Hne].
  - rewrite (store_holds _ b y x); [|apply holds_insert_eq].
    simpl. by rewrite <- app_assoc.
  - rewrite (store_holds _ b y x); [|by apply holds_insert_ne].
    simpl. by rewrite <- app_assoc.
Qed.

(** *** The claims *)

(** C1.  For every raw pointer [a], [wrapUnique(a)] returns a new
    [unique_ptr] whose [get()] is [a]; the objects that existed before,
    the managed values and the trace are as they were: nothing is
    destroyed or modified. *)
Theorem wrapUnique_get (a : addr) (s : state) :
  ∃ p s', wrapUnique a s = Done p s' ∧
          get p s' = Done a s' ∧
          objs s !! p = None ∧
          (∀ q, q ≠ p → objs s' !! q = objs s !! q) ∧
          heap s' = heap s ∧
          trace s' = trace s.
Proof.
  eexists _, _. split; [reflexivity|]. simpl. repeat split.
  - apply load_holds, holds_insert_eq.
  - apply not_elem_of_dom, is_fresh.
  - intros q Hq. by apply lookup_insert_ne.
Qed.

(** The construction step shared by the move constructor and [move]. *)
Lemma release_construct_run s p a :
  holds s p a →
  ∃ q s', (x ← release p; construct x) s = Done q s' ∧
          q ≠ p ∧
          get p s' = Done nullptr s' ∧
          get q s' = Done a s' ∧
          heap s' = heap s ∧
          trace s' = trace s ++ [EvStore p nullptr].
Proof.
  intros H. eexists _, _. split.
  { rewrite (bind_done _ _ _ _ _ (release_run _ _ _ H)). reflexivity. }
  simpl.
  set (m := <[p := UniquePtr nullptr]> (objs s)).
  assert (fresh (dom m) ≠ p) as Hne.
  { intros Heq. apply (is_fresh (dom m)). rewrite Heq.
    apply elem_of_dom. exists (UniquePtr nullptr). apply lookup_insert_eq. }
  repeat split; [done| |].
  - apply load_holds, holds_insert_ne; [done|]. apply lookup_insert_eq.
  - apply load_holds, holds_insert_eq.
Qed.

(** C2.  When [p] holds [a], move-construction of [q] from [p] and
    [q = move(p)] both give a new object [q] with [q.get() == a] and leave
    [p.get() == nullptr]; the managed values are untouched and the only
    event is the store of null into [p]. *)
Theorem move_transfers_ownership (s : state) (p : loc) (a : addr) :
  holds s p a →
  (∃ q s', unique_ptr_move p s = Done q s' ∧
           q ≠ p ∧
           get p s' = Done nullptr s' ∧
           get q s' = Done a s' ∧
           heap s' = heap s ∧
           trace s' = trace s ++ [EvStore p nullptr]) ∧
  (∃ q s', move p s = Done q s' ∧
           q ≠ p ∧
           get p s' = Done nullptr s' ∧
           get q s' = Done a s' ∧
           heap s' = heap s ∧
           trace s' = trace s ++ [EvStore p nullptr]).
Proof.
  intros H. split; by apply release_construct_run.
Qed.

(** C3.  When [p] manages a non-null [a], [p.release()] returns [a],
    afterwards [p.get() == nullptr], and the value at [a] is not destroyed:
    the heap is unchanged and the only event is the store into [p]. *)
Theorem release_returns_address (s : state) (p : loc) (a : addr) :
  a ≠ nullptr → holds s p a →
  ∃ s', release p s = Done a s' ∧
        get p s' = Done nullptr s' ∧
        heap s' = heap s ∧
        trace s' = trace s ++ [EvStore p nullptr].
Proof.
  intros _ H. eexists. split; [by apply release_run|].
  simpl. repeat split. apply load_holds, holds_insert_eq.
Qed.

(** C4.  When [p] holds [a], [p.reset(b)] leaves [p.get() == b] and hands
    [a] to the deleter exactly once, which destroys the value at a non-null
    [a] exactly once; the events come in this order: the store of [b] into
    the field, then the deleter call, then the destruction. *)
Theorem reset_destroys_old_once
    (f : delete_form) (s : state) (p : loc) (a b : addr) :
  holds s p a →
  ∃ s' evs, reset f p b s = Done tt s' ∧
            get p s' = Done b s' ∧
            trace s' = trace s ++ evs ∧
            evs = EvStore p b :: EvDeletePtr f a ::
                  (if a =? nullptr then [] else [EvDestroy f a]) ∧
            deleter_calls a evs = 1%nat ∧
            (a ≠ nullptr →
               destroy_count a evs = 1%nat ∧ heap s' = delete a (heap s)).
Proof.
  intros H. eexists _, _. split; [by apply reset_run|].
  simpl. split; [apply load_holds, holds_insert_eq|].
  split; [reflexivity|]. split; [reflexivity|]. split.
  - unfold deleter_calls. simpl. rewrite N.eqb_refl.
    by destruct (a =? nullptr).
  - intros Ha. apply N.eqb_neq in Ha. rewrite Ha.
    unfold destroy_count. simpl. by rewrite N.eqb_refl.
Qed.

(** C5.  For distinct objects [d] and [src] holding [x] and [y], where
    [x] is null or differs from [y], the move assignment [d = src] returns
    [d], leaves [d] holding [y] and [src] holding null, and hands [x] to the
    deleter after both fields have been stored, destroying the value at a
    non-null [x]; this holds with and without debug checks.  When instead
    [x] is non-null and equal to [y], the build with debug checks aborts
    at the [DCHECK]. *)
Theorem move_assign_transfers
    (dbg : bool) (f : delete_form) (s : state) (d src : loc) (x y : addr) :
  d ≠ src → holds s d x → holds s src y →
  (x = nullptr ∨ x ≠ y →
     ∃ s', operator_assign_move dbg f d src s = Done d s' ∧
           get d s' = Done y s' ∧
           get src s' = Done nullptr s' ∧
           trace s' = trace s ++ EvStore src nullptr :: EvStore d y ::
                        EvDeletePtr f x ::
                        (if x =? nullptr then [] else [EvDestroy f x]) ∧
           heap s' = (if x =? nullptr then heap s else delete x (heap s))) ∧
  (x ≠ nullptr → x = y →
     operator_assign_move true f d src s = Aborted).
Proof.
  intros Hne Hd Hs. split.
  - intros Hpre. eexists. split.
    { apply operator_assign_move_run; [done..|].
      intros _. destruct Hpre; [by left | right; congruence]. }
    simpl. repeat split.
    + apply load_holds, holds_insert_eq.
    + apply load_holds, holds_insert_ne; [done|]. apply lookup_insert_eq.
  - intros Hx <-. by apply (operator_assign_move_aliased f s d src x).
Qed.

(** C6.  When [a] holds [x] and [b] holds [y], the free [swap(a, b)] and
    the member [a.swap(b)] both end with [a] holding [y] and [b] holding
    [x]; the heap is unchanged and the only events are the two field
    stores, so neither managed value is destroyed. *)
Theorem swap_exchanges (s : state) (a b : loc) (x y : addr) :
  holds s a x → holds s b y →
  ∃ s', swap a b s = Done tt s' ∧
        swap_member a b s = Done tt s' ∧
        holds s' a y ∧
        holds s' b x ∧
        heap s' = heap s ∧
        trace s' = trace s ++ [EvStore a y; EvStore b x] ∧
        no_destroy [EvStore a y; EvStore b x].
Proof.
  intros Ha Hb. eexists. split; [by apply swap_member_run|].
  split; [by apply swap_member_run|]. simpl. repeat split.
  - destruct (decide (a = b)) as [-> | Hne].
    + rewrite (holds_inj _ _ _ _ Hb Ha). apply holds_insert_eq.
    + apply holds_insert_ne; [done|]. apply lookup_insert_eq.
  - apply holds_insert_eq.
  - by repeat constructor.
Qed.

(** C7.  When [p] holds [x], [p == b] and [b == p] return a boolean that
    is true exactly when [x = b] (resp. [b = x]), [p != b] and [b != p]
    return its negation, and the state is unchanged. *)
Theorem raw_pointer_comparison (s : state) (p : loc) (x b : addr) :
  holds s p x →
  get p s = Done x s ∧
  (∃ r, operator_eq_l p b s = Done r s ∧ (r = true ↔ x = b) ∧
        operator_ne_l p b s = Done (negb r) s) ∧
  (∃ r, operator_eq_r b p s = Done r s ∧ (r = true ↔ b = x) ∧
        operator_ne_r b p s = Done (negb r) s).
Proof.
  intros H. pose proof (load_holds _ _ _ H) as Hl.
  split; [done|]. split.
  - exists (x =? b). unfold operator_eq_l, operator_ne_l, get.
    rewrite !(bind_done _ _ _ _ _ Hl). repeat split; try done;
      apply N.eqb_eq.
  - exists (b =? x). unfold operator_eq_r, operator_ne_r, get.
    rewrite !(bind_done _ _ _ _ _ Hl). repeat split; try done;
      apply N.eqb_eq.
Qed.

(** C10.  On an object [p] that holds null: [p.release()] returns null
    and [p] still holds null; [p.reset()] leaves [p] holding null, calls
    the deleter on null and destroys nothing; the destructor calls the
    deleter on null and destroys nothing.  In all three the heap is
    unchanged. *)
Theorem null_instance_noop (f : delete_form) (s : state) (p : loc) :
  holds s p nullptr →
  (∃ s', release p s = Done nullptr s' ∧
         holds s' p nullptr ∧
         heap s' = heap s ∧
         trace s' = trace s ++ [EvStore p nullptr]) ∧
  (∃ s', reset f p nullptr s = Done tt s' ∧
         holds s' p nullptr ∧
         heap s' = heap s ∧
         trace s' = trace s ++ [EvStore p nullptr; EvDeletePtr f nullptr] ∧
         no_destroy [EvStore p nullptr; EvDeletePtr f nullptr]) ∧
  (∃ s', unique_ptr_dtor f p s = Done tt s' ∧
         objs s' = delete p (objs s) ∧
         heap s' = heap s ∧
         trace s' = trace s ++ [EvDeletePtr f nullptr; EvStore p nullptr] ∧
         no_destroy [EvDeletePtr f nullptr; EvStore p nullptr]).
Proof.
  intros H. repeat split.
  - eexists. split; [by apply release_run|]. simpl. repeat split.
    apply holds_insert_eq.
  - eexists. split; [by apply reset_run|]. simpl. repeat split.
    + apply holds_insert_eq.
    + by repeat constructor.
  - eexists. split; [by apply unique_ptr_dtor_run|]. simpl. repeat split.
    by repeat constructor.
Qed.

(** C8.  Whatever the pointee types [T] and [U], instantiating the member
    [operator==] or [operator!=] stops at the static assertion, and an
    expression comparing two [unique_ptr]s resolves to that member and so
    compiles to no run-time function at all.  The only fact used about the
    language is that pointers have a non-zero size. *)
Theorem unique_ptr_comparison_rejected
    (sizeof_ptr : ctype → N) (T U : ctype) :
  (∀ V, 0 < sizeof_ptr V) →
  member_operator_eq sizeof_ptr T U
    = HardError "unique_ptrs should never be equal" ∧
  member_operator_ne sizeof_ptr T U
    = HardError "unique_ptrs should never be equal" ∧
  compile_eq sizeof_ptr (OpUniquePtr T) (OpUniquePtr U)
    = HardError "unique_ptrs should never be equal" ∧
  compile_ne sizeof_ptr (OpUniquePtr T) (OpUniquePtr U)
    = HardError "unique_ptrs should never be equal".
Proof.
  intros Hpos.
  assert ((sizeof_ptr U =? 0) = false) as Hz.
  { apply N.eqb_neq. specialize (Hpos U). lia. }
  unfold compile_eq, compile_ne, candidates, resolve,
    member_operator_eq, member_operator_ne. simpl.
  rewrite Hz. simpl. done.
Qed.

(** The converting constructor is dropped by substitution failure exactly
    when the trait is false. *)
Lemma converting_ctor_gated (converts : ctype → ctype → bool) (T U : ctype) :
  converting_ctor converts T U = Removed
  ↔ is_convertible converts (TPtr U) (TPtr T) = false.
Proof.
  unfold converting_ctor, enable_if.
  by destruct (is_convertible converts (TPtr U) (TPtr T)).
Qed.

(** The converting assignment is a candidate for every [T] and [U]. *)
Lemma converting_assign_always_candidate
    (converts : ctype → ctype → bool) (dbg : bool)
    (sizeof : ctype → option N) (T U : ctype) :
  converting_assign converts dbg sizeof T U ≠ Removed.
Proof. done. Qed.

(** C9 on two inputs where [is_convertible<U*, T*>::value] is false.
    At [T = Base], [U = Base[]] the converting constructor is removed by
    substitution failure, but the converting assignment is a candidate whose
    body instantiates without error: it compiles to the run-time move
    assignment with the scalar deleter.  At [T = Base], [U = Other] the
    constructor is removed again, and the assignment is a candidate whose
    body is a hard error. *)
Theorem converting_assign_not_gated (dbg : bool) :
  (is_convertible hierarchy (TPtr (TArr Base)) (TPtr Base) = false ∧
   converting_ctor hierarchy Base (TArr Base) = Removed ∧
   converting_assign hierarchy dbg sizeof_complete Base (TArr Base)
     = Candidate (Compiled (operator_assign_move dbg ScalarDelete))) ∧
  (is_convertible hierarchy (TPtr Other) (TPtr Base) = false ∧
   converting_ctor hierarchy Base Other = Removed ∧
   converting_assign hierarchy dbg sizeof_complete Base Other
     = Candidate (HardError "invalid conversion between pointer types")).
Proof. repeat split. Qed.

(** What the first input does at run time, with object 1 of [s0] read as
    a [unique_ptr<Base[]>] and object 3 as a [unique_ptr<Base>]: the array
    at 100 moves from object 1 into object 3, whose destructor then applies
    the scalar delete-expression to it. *)
Example array_into_scalar :
  (operator_assign_move false ScalarDelete 3%positive 1%positive ;;
   unique_ptr_dtor ScalarDelete 3%positive) s0
  = Done tt (State {[ 1%positive := UniquePtr nullptr;
                      2%positive := UniquePtr 200 ]}
                   {[ 200 := 7 ]}
                   [EvStore 1%positive nullptr; EvStore 3%positive 100;
                    EvDeletePtr ScalarDelete nullptr;
                    EvDeletePtr ScalarDelete 100;
                    EvDestroy ScalarDelete 100;
                    EvStore 3%positive nullptr]).
Proof. vm_compute. reflexivity. Qed.

(** *** Scenarios *)

(** [p = wrapUnique(a)] for a value at 300, then [p.reset()]: [p] is null
    and the value is gone. *)
Example wrap_then_reset :
  (p ← wrapUnique 300; reset ScalarDelete p nullptr ;; get p)
    (State ∅ {[ 300 := 5 ]} [])
  = Done nullptr (State {[ 1%positive := UniquePtr nullptr ]} ∅
                        [EvStore 1%positive nullptr;
                         EvDeletePtr ScalarDelete 300;
                         EvDestroy ScalarDelete 300]).
Proof. vm_compute. reflexivity. Qed.

(** [q = move(p)] into an existing [q]: the temporary returned by [move]
    is move-assigned into [q] and then destroyed.  [q]'s old value is
    destroyed, the transferred one is not. *)
Example move_into_existing :
  (t ← move 1%positive;
   operator_assign_move true ScalarDelete 2%positive t ;;
   unique_ptr_dtor ScalarDelete t) s0
  = Done tt (State {[ 1%positive := UniquePtr nullptr;
                      2%positive := UniquePtr 100;
                      3%positive := UniquePtr nullptr ]}
                   {[ 100 := 5 ]}
                   [EvStore 1%positive nullptr; EvStore 4%positive nullptr;
                    EvStore 2%positive 100;
                    EvDeletePtr ScalarDelete 200; EvDestroy ScalarDelete 200;
                    EvDeletePtr ScalarDelete nullptr;
                    EvStore 4%positive nullptr]).
Proof. vm_compute. reflexivity. Qed.

(** Self-move-assignment of a non-null object: the debug build stops at
    the [DCHECK]; the release build destroys the value the object still
    points to. *)
Example self_move_assign :
  operator_assign_move true ScalarDelete 1%positive 1%positive s0 = Aborted ∧
  operator_assign_move false ScalarDelete 1%positive 1%positive s0
  = Done 1%positive
      (State (objs s0) {[ 200 := 7 ]}
             [EvStore 1%positive nullptr; EvStore 1%positive 100;
              EvDeletePtr ScalarDelete 100; EvDestroy ScalarDelete 100]).
Proof. split; vm_compute; reflexivity. Qed.

(** Derived-to-base conversion is enabled for both converting members. *)
Example derived_to_base (dbg : bool) :
  converting_ctor hierarchy Base Derived
    = Candidate (Compiled unique_ptr_move) ∧
  converting_assign hierarchy dbg sizeof_complete Base Derived
    = Candidate (Compiled (operator_assign_move dbg ScalarDelete)).
Proof. split; reflexivity. Qed.

(** The deleter selected for each form of pointee type. *)
Example deleter_selection :
  OwnedPtrDeleter_deletePtr sizeof_complete Base = Compiled ScalarDelete ∧
  OwnedPtrDeleter_deletePtr sizeof_complete (TArr Base) = Compiled ArrayDelete ∧
  OwnedPtrDeleter_deletePtr sizeof_complete (TArrN Base 3)
    = HardError "do not use array with size as type" ∧
  OwnedPtrDeleter_deletePtr (λ _, None) Base
    = HardError "invalid application of sizeof to an incomplete type".
Proof. repeat split. Qed.

(** *** The claims at concrete inputs *)

Lemma move_transfers_ownership_witness :
  (∃ q s', unique_ptr_move 1%positive s0 = Done q s' ∧
           q ≠ 1%positive ∧
           get 1%positive s' = Done nullptr s' ∧
           get q s' = Done 100 s' ∧
           heap s' = heap s0 ∧
           trace s' = trace s0 ++ [EvStore 1%positive nullptr]) ∧
  (∃ q s', move 1%positive s0 = Done q s' ∧
           q ≠ 1%positive ∧
           get 1%positive s' = Done nullptr s' ∧
           get q s' = Done 100 s' ∧
           heap s' = heap s0 ∧
           trace s' = trace s0 ++ [EvStore 1%positive nullptr]).
Proof. apply (move_transfers_ownership s0 1%positive 100). reflexivity. Defined.

Lemma release_returns_address_witness :
  ∃ s', release 1%positive s0 = Done 100 s' ∧
        get 1%positive s' = Done nullptr s' ∧
        heap s' = heap s0 ∧
        trace s' = trace s0 ++ [EvStore 1%positive nullptr].
Proof.
  apply (release_returns_address s0 1%positive 100); [discriminate | reflexivity].
Defined.

Lemma reset_destroys_old_once_witness :
  ∃ s' evs, reset ScalarDelete 1%positive 300 s0 = Done tt s' ∧
            get 1%positive s' = Done 300 s' ∧
            trace s' = trace s0 ++ evs ∧
            evs = [EvStore 1%positive 300; EvDeletePtr ScalarDelete 100;
                   EvDestroy ScalarDelete 100] ∧
            deleter_calls 100 evs = 1%nat ∧
            destroy_count 100 evs = 1%nat ∧
            heap s' = delete 100 (heap s0).
Proof.
  destruct (reset_destroys_old_once ScalarDelete s0 1%positive 100 300)
    as (s' & evs & Hrun & Hget & Htr & Hevs & Hcalls & Hdestroy);
    [reflexivity|].
  exists s', evs. repeat split; try assumption; apply Hdestroy; discriminate.
Defined.

Lemma move_assign_transfers_witness :
  (∃ s', operator_assign_move true ArrayDelete 1%positive 2%positive s0
           = Done 1%positive s' ∧
         get 1%positive s' = Done 200 s' ∧
         get 2%positive s' = Done nullptr s' ∧
         trace s' = trace s0 ++ [EvStore 2%positive nullptr;
                                 EvStore 1%positive 200;
                                 EvDeletePtr ArrayDelete 100;
                                 EvDestroy ArrayDelete 100] ∧
         heap s' = delete 100 (heap s0)) ∧
  operator_assign_move true ArrayDelete 1%positive 2%positive s_aliased
    = Aborted.
Proof.
  split.
  - apply (move_assign_transfers true ArrayDelete s0 1%positive 2%positive
             100 200);
      [discriminate | reflexivity | reflexivity | right; discriminate].
  - apply (move_assign_transfers true ArrayDelete s_aliased
             1%positive 2%positive 100 100);
      [discriminate | reflexivity | reflexivity | discriminate | reflexivity].
Defined.

Lemma swap_exchanges_witness :
  ∃ s', swap 1%positive 3%positive s0 = Done tt s' ∧
        swap_member 1%positive 3%positive s0 = Done tt s' ∧
        holds s' 1%positive nullptr ∧
        holds s' 3%positive 100 ∧
        heap s' = heap s0 ∧
        trace s' = trace s0 ++ [EvStore 1%positive nullptr; EvStore 3%positive 100] ∧
        no_destroy [EvStore 1%positive nullptr; EvStore 3%positive 100].
Proof.
  apply (swap_exchanges s0 1%positive 3%positive 100 nullptr); reflexivity.
Defined.

Lemma raw_pointer_comparison_witness :
  get 2%positive s0 = Done 200 s0 ∧
  (∃ r, operator_eq_l 2%positive 200 s0 = Done r s0 ∧ (r = true ↔ 200 = 200) ∧
        operator_ne_l 2%positive 200 s0 = Done (negb r) s0) ∧
  (∃ r, operator_eq_r 200 2%positive s0 = Done r s0 ∧ (r = true ↔ 200 = 200) ∧
        operator_ne_r 200 2%positive s0 = Done (negb r) s0).
Proof. apply (raw_pointer_comparison s0 2%positive 200 200). reflexivity. Defined.

Lemma null_instance_noop_witness :
  (∃ s', release 3%positive s0 = Done nullptr s' ∧
         holds s' 3%positive nullptr ∧
         heap s' = heap s0 ∧
         trace s' = trace s0 ++ [EvStore 3%positive nullptr]) ∧
  (∃ s', reset ScalarDelete 3%positive nullptr s0 = Done tt s' ∧
         holds s' 3%positive nullptr ∧
         heap s' = heap s0 ∧
         trace s' = trace s0 ++ [EvStore 3%positive nullptr;
                                 EvDeletePtr ScalarDelete nullptr] ∧
         no_destroy [EvStore 3%positive nullptr;
                     EvDeletePtr ScalarDelete nullptr]) ∧
  (∃ s', unique_ptr_dtor ScalarDelete 3%positive s0 = Done tt s' ∧
         objs s' = delete 3%positive (objs s0) ∧
         heap s' = heap s0 ∧
         trace s' = trace s0 ++ [EvDeletePtr ScalarDelete nullptr;
                                 EvStore 3%positive nullptr] ∧
         no_destroy [EvDeletePtr ScalarDelete nullptr;
                     EvStore 3%positive nullptr]).
Proof. apply (null_instance_noop ScalarDelete s0 3%positive). reflexivity. Defined.

Lemma unique_ptr_comparison_rejected_witness :
  member_operator_eq sizeof_ptr64 Base Derived
    = HardError "unique_ptrs should never be equal" ∧
  member_operator_ne sizeof_ptr64 Base Derived
    = HardError "unique_ptrs should never be equal" ∧
  compile_eq sizeof_ptr64 (OpUniquePtr Base) (OpUniquePtr Derived)
    = HardError "unique_ptrs should never be equal" ∧
  compile_ne sizeof_ptr64 (OpUniquePtr Base) (OpUniquePtr Derived)
    = HardError "unique_ptrs should never be equal".
Proof.
  apply (unique_ptr_comparison_rejected sizeof_ptr64 Base Derived).
  intros V. reflexivity.
Defined.

(** ** Further properties of the header *)

(** *** Observers and checked access *)

(** [explicit operator bool] is true exactly when the managed address is
    non-null, [operator!] returns its negation, and neither changes the
    state. *)
Theorem bool_conversion (s : state) (p : loc) (a : addr) :
  holds s p a →
  ∃ b, operator_bool p s = Done b s ∧
       (b = true ↔ a ≠ nullptr) ∧
       operator_not p s = Done (negb b) s.
Proof.
  intros H. pose proof (load_holds _ _ _ H) as Hl.
  exists (negb (a =? nullptr)). unfold operator_bool, operator_not.
  rewrite !(bind_done _ _ _ _ _ Hl). repeat split.
  - intros Hb Ha. subst a. discriminate.
  - intros Ha. apply N.eqb_neq in Ha. by rewrite Ha.
  - by rewrite negb_involutive.
Qed.

Lemma mret_run {A} (a : A) s : (mret a : M A) s = Done a s.
Proof. done. Qed.

Lemma nonnull_condition_run s p a :
  holds s p a →
  (v ← load p; mret (negb (v =? nullptr))) s = Done (negb (a =? nullptr)) s.
Proof. intros H. by rewrite (bind_done _ _ _ _ _ (load_holds _ _ _ H)). Qed.

(** [operator*] and [operator->] on an object holding [a]: a non-null [a]
    is returned in every build with the state unchanged; a null [a] aborts
    the build with debug checks and is returned unchecked by the build
    without them. *)
Theorem deref_checked (s : state) (p : loc) (a : addr) :
  holds s p a →
  (a ≠ nullptr →
     ∀ dbg, operator_deref dbg p s = Done (Deref a) s ∧
            operator_arrow dbg p s = Done a s) ∧
  (a = nullptr →
     operator_deref true p s = Aborted ∧
     operator_arrow true p s = Aborted ∧
     operator_deref false p s = Done (Deref nullptr) s ∧
     operator_arrow false p s = Done nullptr s).
Proof.
  intros H. pose proof (load_holds _ _ _ H) as Hl.
  pose proof (nonnull_condition_run _ _ _ H) as Hc. split.
  - intros Ha dbg. apply N.eqb_neq in Ha.
    unfold operator_deref, operator_arrow.
    assert (DCHECK dbg (v ← load p; mret (negb (v =? nullptr))) s = Done tt s)
      as Hd.
    { destruct dbg; [|apply DCHECK_off].
      rewrite (DCHECK_on _ _ _ Hc). by rewrite Ha. }
    rewrite !(bind_done _ _ _ _ _ Hd). split; [|done].
    by rewrite (bind_done _ _ _ _ _ Hl).
  - intros ->. unfold operator_deref, operator_arrow. repeat split.
    + apply bind_aborted. by rewrite (DCHECK_on _ _ _ Hc).
    + apply bind_aborted. by rewrite (DCHECK_on _ _ _ Hc).
    + rewrite (bind_done _ _ _ _ _ (DCHECK_off _ s)).
      by rewrite (bind_done _ _ _ _ _ Hl).
    + by rewrite (bind_done _ _ _ _ _ (DCHECK_off _ s)).
Qed.

(** [operator[]] on an object holding [a]: with [a] non-null and
    [0 <= i] it designates element [i] in every build, whatever the size of
    the array; with [a] null or [i] negative the build with debug checks
    aborts; the build without them designates [a[i]] for every [a] and
    [i]. *)
Theorem index_checked (s : state) (p : loc) (a : addr) (i : Z) :
  holds s p a →
  (a ≠ nullptr → (0 ≤ i)%Z →
     ∀ dbg, operator_index dbg p i s = Done (Subscript a i) s) ∧
  (a = nullptr ∨ (i < 0)%Z → operator_index true p i s = Aborted) ∧
  operator_index false p i s = Done (Subscript a i) s.
Proof.
  intros H. pose proof (load_holds _ _ _ H) as Hl.
  pose proof (nonnull_condition_run _ _ _ H) as Hc.
  assert (operator_index false p i s = Done (Subscript a i) s) as Hrel.
  { unfold operator_index.
    rewrite (bind_done _ _ _ _ _ (DCHECK_off _ s)).
    rewrite (bind_done _ _ _ _ _ (DCHECK_off _ s)).
    by rewrite (bind_done _ _ _ _ _ Hl). }
  repeat split; [| |done].
  - intros Ha Hi [|]; [|done]. apply N.eqb_neq in Ha.
    apply Z.leb_le in Hi. unfold operator_index.
    erewrite bind_done; [|by rewrite (DCHECK_on _ _ _ Hc), Ha].
    erewrite bind_done;
      [|by rewrite (DCHECK_on _ s _ (mret_run (0 <=? i)%Z s)), Hi].
    by rewrite (bind_done _ _ _ _ _ Hl).
  - intros [-> | Hi]; unfold operator_index.
    + apply bind_aborted. by rewrite (DCHECK_on _ _ _ Hc).
    + destruct (a =? nullptr) eqn:Ha.
      * apply bind_aborted. by rewrite (DCHECK_on _ _ _ Hc).
      * erewrite bind_done; [|by rewrite (DCHECK_on _ _ _ Hc)].
        apply bind_aborted.
        rewrite (DCHECK_on _ s _ (mret_run (0 <=? i)%Z s)).
        apply Z.leb_gt in Hi. by rewrite Hi.
Qed.

(** The default and the [nullptr] constructor make the same empty object:
    [get()] is null, [operator bool] is false, and nothing that existed
    before has changed. *)
Theorem default_constructed_empty (s : state) :
  ∃ p s', unique_ptr_default s = Done p s' ∧
          unique_ptr_nullptr s = Done p s' ∧
          objs s !! p = None ∧
          get p s' = Done nullptr s' ∧
          operator_bool p s' = Done false s' ∧
          (∀ q, q ≠ p → objs s' !! q = objs s !! q) ∧
          heap s' = heap s ∧
          trace s' = trace s.
Proof.
  eexists _, _. split; [reflexivity|]. split; [reflexivity|]. simpl.
  assert (holds (State (<[fresh (dom (objs s)) := UniquePtr nullptr]> (objs s))
                       (heap s) (trace s)) (fresh (dom (objs s))) nullptr)
    as H by apply holds_insert_eq.
  repeat split.
  - apply not_elem_of_dom, is_fresh.
  - by apply load_holds.
  - unfold operator_bool. by rewrite (bind_done _ _ _ _ _ (load_holds _ _ _ H)).
  - intros q Hq. by apply lookup_insert_ne.
Qed.

(** *** Destruction *)

(** The destructor of an object holding a non-null [a] hands [a] to the
    selected deleter once: the value at [a] leaves the heap, it is the only
    value destroyed, the delete-expression is the one selected for the
    pointee type, and the object is gone. *)
Theorem dtor_destroys_once (f : delete_form) (s : state) (p : loc) (a : addr) :
  holds s p a → a ≠ nullptr →
  ∃ s' evs, unique_ptr_dtor f p s = Done tt s' ∧
            objs s' = delete p (objs s) ∧
            heap s' = delete a (heap s) ∧
            trace s' = trace s ++ evs ∧
            evs = [EvDeletePtr f a; EvDestroy f a; EvStore p nullptr] ∧
            destroy_count a evs = 1%nat ∧
            (∀ b, b ≠ a → destroy_count b evs = 0%nat).
Proof.
  intros H Ha. apply N.eqb_neq in Ha.
  eexists _, _. split; [by apply unique_ptr_dtor_run|]. simpl.
  rewrite Ha. repeat split.
  - unfold destroy_count. simpl. by rewrite N.eqb_refl.
  - intros b Hb. unfold destroy_count. simpl.
    apply not_eq_sym, N.eqb_neq in Hb. by rewrite Hb.
Qed.


(** [p.reset(p.get())] on a non-null object destroys the value and
    leaves [p] holding the address of the destroyed value. *)
Theorem reset_to_self_dangles (f : delete_form) (s : state) (p : loc) (a : addr) :
  holds s p a → a ≠ nullptr →
  ∃ s', (b ← get p; reset f p b) s = Done tt s' ∧
        holds s' p a ∧
        heap s' !! a = None ∧
        ¬ owned_live s'.
Proof.
  intros H Ha. eexists. split.
  { unfold get. rewrite (bind_done _ _ _ _ _ (load_holds _ _ _ H)).
    by apply reset_run. }
  assert ((a =? nullptr) = false) as Hn by by apply N.eqb_neq.
  rewrite Hn. simpl. split; [apply holds_insert_eq|].
  split; [apply lookup_delete_eq|].
  intros Hlive. destruct (Hlive p a) as [v Hv]; [apply holds_insert_eq|done|].
  simpl in Hv. by rewrite lookup_delete_eq in Hv.
Qed.

(** Self-move-assignment [p = std::move(p)] of a non-null object: the
    build with debug checks aborts; the build without them destroys the
    value and leaves [p] holding its address.  On a null object it does
    nothing but call the deleter on null. *)
Theorem self_move_assign_general
    (f : delete_form) (s : state) (p : loc) (a : addr) :
  holds s p a →
  (a ≠ nullptr →
     operator_assign_move true f p p s = Aborted ∧
     ∃ s', operator_assign_move false f p p s = Done p s' ∧
           holds s' p a ∧ heap s' !! a = None) ∧
  (a = nullptr →
     ∀ dbg, ∃ s', operator_assign_move dbg f p p s = Done p s' ∧
                  objs s' = objs s ∧ heap s' = heap s).
Proof.
  intros H.
  assert (holds (State (<[p := UniquePtr nullptr]> (objs s)) (heap s)
                       (trace s ++ [EvStore p nullptr])) p nullptr) as H1
    by apply holds_insert_eq.
  split.
  - intros Ha. apply N.eqb_neq in Ha. split.
    + unfold operator_assign_move.
      rewrite (bind_done _ _ _ _ _ (load_holds _ _ _ H)).
      rewrite (bind_done _ _ _ _ _ (release_run _ _ _ H)).
      rewrite (bind_done _ _ _ _ _ (store_holds _ _ _ a H1)).
      apply bind_aborted.
      rewrite (DCHECK_on _ _ _ (assign_condition_run _ _ _ _ _ _)).
      by rewrite Ha, N.eqb_refl.
    + eexists. split.
      { unfold operator_assign_move.
        rewrite (bind_done _ _ _ _ _ (load_holds _ _ _ H)).
        rewrite (bind_done _ _ _ _ _ (release_run _ _ _ H)).
        rewrite (bind_done _ _ _ _ _ (store_holds _ _ _ a H1)).
        rewrite (bind_done _ _ _ _ _ (DCHECK_off _ _)).
        rewrite (bind_done _ _ _ _ _ (deletePtr_run f a _)).
        reflexivity. }
      simpl. rewrite Ha. simpl. split; [apply holds_insert_eq|].
      apply lookup_delete_eq.
  - intros -> dbg. eexists. split.
    { unfold operator_assign_move.
      rewrite (bind_done _ _ _ _ _ (load_holds _ _ _ H)).
      rewrite (bind_done _ _ _ _ _ (release_run _ _ _ H)).
      rewrite (bind_done _ _ _ _ _ (store_holds _ _ _ nullptr H1)).
      erewrite bind_done; cycle 1.
      { destruct dbg; [|apply DCHECK_off].
        by rewrite (DCHECK_on _ _ _ (assign_condition_run _ _ _ _ _ _)). }
      rewrite (bind_done _ _ _ _ _ (deletePtr_run f nullptr _)).
      reflexivity. }
    simpl. split; [|done].
    rewrite insert_insert_eq. by apply insert_id.
Qed.

(** *** The one-owner discipline *)

Lemma holds_insert_inv m h t p a q b :
  holds (State (<[p := UniquePtr a]> m) h t) q b →
  (q = p ∧ b = a) ∨ (q ≠ p ∧ m !! q = Some (UniquePtr b)).
Proof.
  unfold holds; simpl. destruct (decide (p = q)) as [-> | Hne].
  - rewrite lookup_insert_eq. intros [= ->]. by left.
  - rewrite lookup_insert_ne by done. intros Hq. right. by split.
Qed.

Lemma well_owned_trace m h t t' :
  well_owned (State m h t) → well_owned (State m h t').
Proof. done. Qed.

(** Giving [p] an address that is null, or live and managed by no other
    object, keeps the discipline. *)
Lemma well_owned_give m h t t' p a :
  well_owned (State m h t) →
  (a = nullptr ∨
   (is_Some (h !! a) ∧ ∀ q, q ≠ p → m !! q ≠ Some (UniquePtr a))) →
  well_owned (State (<[p := UniquePtr a]> m) h t').
Proof.
  intros [Hu Hl] Ha. split.
  - intros q1 q2 c Hne H1 H2.
    destruct (holds_insert_inv _ _ _ _ _ _ _ H1) as [[-> ->] | [Hq1 H1']];
      destruct (holds_insert_inv _ _ _ _ _ _ _ H2) as [[-> Hc] | [Hq2 H2']].
    + done.
    + destruct Ha as [-> | [_ Ha]]; [done|]. by destruct (Ha q2).
    + subst c. destruct Ha as [-> | [_ Ha]]; [done|]. by destruct (Ha q1).
    + by apply (Hu q1 q2 c).
  - intros q c H Hc.
    destruct (holds_insert_inv _ _ _ _ _ _ _ H) as [[-> ->] | [Hq H']].
    + destruct Ha as [-> | [Ha _]]; done.
    + by apply (Hl q c).
Qed.

(** Destroying a value no object manages keeps the discipline. *)
Lemma well_owned_destroy m h t t' a :
  well_owned (State m h t) →
  (∀ q, m !! q ≠ Some (UniquePtr a)) →
  well_owned (State m (delete a h) t').
Proof.
  intros [Hu Hl] Ha. split; [done|].
  intros q c H Hc. unfold holds in H; simpl in *.
  rewrite lookup_delete_ne.
  - by apply (Hl q c).
  - intros ->. by destruct (Ha q).
Qed.

(** The end of an object's lifetime keeps the discipline. *)
Lemma well_owned_forget m h t t' p :
  well_owned (State m h t) → well_owned (State (delete p m) h t').
Proof.
  intros [Hu Hl].
  assert (∀ q c, holds (State (delete p m) h t') q c →
                 holds (State m h t) q c) as Hsub.
  { unfold holds; simpl. intros q c H.
    destruct (decide (p = q)) as [-> | Hne].
    - by rewrite lookup_delete_eq in H.
    - by rewrite lookup_delete_ne in H. }
  split.
  - intros q1 q2 c Hne H1 H2. apply (Hu q1 q2 c); auto.
  - intros q c H Hc. apply (Hl q c); auto.
Qed.

Lemma well_owned_state s : well_owned s →
  well_owned (State (objs s) (heap s) (trace s)).
Proof. by destruct s. Qed.

(** No other object manages what [p] manages, when it is non-null. *)
Lemma sole_owner s p a q :
  unique_owners s → holds s p a → a ≠ nullptr → q ≠ p →
  objs s !! q ≠ Some (UniquePtr a).
Proof. intros Hu Hp Ha Hq Hc. by apply Ha, (Hu q p a). Qed.

(** [release] keeps the discipline, and afterwards no object manages the
    returned address: it belongs to the caller. *)
Theorem release_keeps_ownership (s : state) (p : loc) (a : addr) :
  well_owned s → holds s p a →
  ∃ s', release p s = Done a s' ∧
        well_owned s' ∧
        (a ≠ nullptr → unowned s' a ∧ is_Some (heap s' !! a)).
Proof.
  intros Hw H. eexists. split; [by apply release_run|]. split.
  - apply (well_owned_give _ _ (trace s)); [by apply well_owned_state|].
    by left.
  - intros Ha. simpl. split.
    + intros q Hq.
      destruct (holds_insert_inv _ _ _ _ _ _ _ Hq) as [[_ ->] | [Hne Hc]];
        [done|].
      by apply (sole_owner s p a q (proj1 Hw)).
    + by apply (proj2 Hw p a).
Qed.


(** In a state that keeps the discipline, move assignment between two
    distinct objects never fails the [DCHECK], in either build, and keeps
    the discipline: [d] owns what [src] owned, and [d]'s old value is
    destroyed. *)
Theorem move_assign_keeps_ownership
    (dbg : bool) (f : delete_form) (s : state) (d src : loc) (x y : addr) :
  well_owned s → d ≠ src → holds s d x → holds s src y →
  ∃ s', operator_assign_move dbg f d src s = Done d s' ∧
        holds s' d y ∧ holds s' src nullptr ∧
        (x ≠ nullptr → heap s' !! x = None) ∧
        well_owned s'.
Proof.
  intros Hw Hne Hd Hs.
  assert (x = nullptr ∨ y ≠ x) as Hxy.
  { destruct (decide (x = nullptr)) as [|Hx]; [by left | right].
    intros ->. by apply Hx, (proj1 Hw d src x). }
  eexists. split; [by apply operator_assign_move_run|]. simpl.
  split; [apply holds_insert_eq|].
  split; [apply holds_insert_ne; [done|apply lookup_insert_eq]|].
  split.
  { intros Hx. apply N.eqb_neq in Hx. rewrite Hx. apply lookup_delete_eq. }
  assert (well_owned
            (State (<[d := UniquePtr y]> (<[src := UniquePtr nullptr]> (objs s)))
                   (heap s) (trace s))) as Hw2.
  { apply (well_owned_give _ _ (trace s)).
    - apply (well_owned_give _ _ (trace s)); [by apply well_owned_state|].
      by left.
    - destruct (decide (y = nullptr)) as [-> | Hy]; [by left | right].
      split; [by apply (proj2 Hw src y)|].
      intros q _ Hq. destruct (decide (src = q)) as [<- | Hq'].
      + rewrite lookup_insert_eq in Hq. by injection Hq as <-.
      + rewrite lookup_insert_ne in Hq by done.
        by apply (sole_owner s src y q (proj1 Hw)). }
  destruct (x =? nullptr) eqn:Hx; [exact Hw2|].
  apply N.eqb_neq in Hx.
  apply (well_owned_destroy _ _ (trace s)); [exact Hw2|].
  intros q Hq. destruct (decide (d = q)) as [<- | Hdq].
  - rewrite lookup_insert_eq in Hq. injection Hq as ->.
    by destruct Hxy.
  - rewrite lookup_insert_ne in Hq by done.
    destruct (decide (src = q)) as [<- | Hsq].
    + rewrite lookup_insert_eq in Hq. by injection Hq as <-.
    + rewrite lookup_insert_ne in Hq by done.
      by apply (sole_owner s d x q (proj1 Hw)).
Qed.

Lemma swapped_inj a b q1 q2 : swapped a b q1 = swapped a b q2 → q1 = q2.
Proof. unfold swapped. repeat case_decide; congruence. Qed.

Lemma swapped_holds m h t t' a b x y q c :
  m !! a = Some (UniquePtr x) → m !! b = Some (UniquePtr y) →
  holds (State (<[b := UniquePtr x]> (<[a := UniquePtr y]> m)) h t') q c →
  holds (State m h t) (swapped a b q) c.
Proof.
  intros Ha Hb H. unfold swapped.
  destruct (holds_insert_inv _ _ _ _ _ _ _ H) as [[-> ->] | [Hqb H1]].
  { by rewrite decide_True. }
  rewrite decide_False by done.
  destruct (decide (q = a)) as [-> | Hqa].
  - rewrite lookup_insert_eq in H1. by injection H1 as <-.
  - by rewrite lookup_insert_ne in H1.
Qed.

(** [swap] keeps the discipline. *)
Theorem swap_keeps_ownership (s : state) (a b : loc) (x y : addr) :
  well_owned s → holds s a x → holds s b y →
  ∃ s', swap a b s = Done tt s' ∧ well_owned s'.
Proof.
  intros [Hu Hl] Ha Hb. eexists. split; [by apply swap_member_run|].
  destruct s as [m h t]. simpl in *. split.
  - intros q1 q2 c Hne H1 H2.
    apply (Hu (swapped a b q1) (swapped a b q2) c).
    + intros Heq. by apply Hne, (swapped_inj a b).
    + by eapply (swapped_holds m h t).
    + by eapply (swapped_holds m h t).
  - intros q c H Hc. apply (Hl (swapped a b q) c); [|done].
    by eapply (swapped_holds m h t).
Qed.

(** The destructor keeps the discipline: the object and the value it
    managed go together. *)
Theorem dtor_keeps_ownership (f : delete_form) (s : state) (p : loc) (a : addr) :
  well_owned s → holds s p a →
  ∃ s', unique_ptr_dtor f p s = Done tt s' ∧
        objs s' !! p = None ∧
        (a ≠ nullptr → heap s' !! a = None) ∧
        well_owned s'.
Proof.
  intros Hw H. eexists. split; [by apply unique_ptr_dtor_run|]. simpl.
  split; [apply lookup_delete_eq|]. split.
  { intros Ha. apply N.eqb_neq in Ha. rewrite Ha. apply lookup_delete_eq. }
  pose proof (well_owned_forget _ _ _ (trace s) p (well_owned_state s Hw))
    as Hw1.
  destruct (a =? nullptr) eqn:Ha; [exact Hw1|]. apply N.eqb_neq in Ha.
  apply (well_owned_destroy _ _ (trace s)); [exact Hw1|].
  intros q Hq. destruct (decide (p = q)) as [<- | Hne].
  - by rewrite lookup_delete_eq in Hq.
  - rewrite lookup_delete_ne in Hq by done.
    by apply (sole_owner s p a q (proj1 Hw)).
Qed.

(** [reset(b)] keeps the discipline when [b] is null, or is the address
    of a live value that no object manages. *)
Theorem reset_keeps_ownership
    (f : delete_form) (s : state) (p : loc) (a b : addr) :
  well_owned s → holds s p a →
  b = nullptr ∨ (is_Some (heap s !! b) ∧ unowned s b) →
  ∃ s', reset f p b s = Done tt s' ∧ holds s' p b ∧ well_owned s'.
Proof.
  intros Hw H Hb. eexists. split; [by apply reset_run|]. simpl.
  split; [apply holds_insert_eq|].
  assert (well_owned (State (<[p := UniquePtr b]> (objs s)) (heap s) (trace s)))
    as Hw1.
  { apply (well_owned_give _ _ (trace s)); [by apply well_owned_state|].
    destruct Hb as [-> | [Hlive Hun]]; [by left | right].
    split; [done|]. intros q _ Hq. by apply (Hun q). }
  destruct (a =? nullptr) eqn:Ha; [exact Hw1|]. apply N.eqb_neq in Ha.
  apply (well_owned_destroy _ _ (trace s)); [exact Hw1|].
  intros q Hq. destruct (decide (p = q)) as [<- | Hne].
  - rewrite lookup_insert_eq in Hq. injection Hq as ->.
    destruct Hb as [-> | [_ Hun]]; [done|]. by apply (Hun p).
  - rewrite lookup_insert_ne in Hq by done.
    by apply (sole_owner s p a q (proj1 Hw)).
Qed.

(** [wrapUnique(a)] keeps the discipline when [a] is null, or is the
    address of a live value that no object manages yet. *)
Theorem wrapUnique_keeps_ownership (s : state) (a : addr) :
  well_owned s →
  a = nullptr ∨ (is_Some (heap s !! a) ∧ unowned s a) →
  ∃ p s', wrapUnique a s = Done p s' ∧ holds s' p a ∧ well_owned s'.
Proof.
  intros Hw Ha. eexists _, _. split; [reflexivity|]. simpl.
  split; [apply holds_insert_eq|].
  apply (well_owned_give _ _ (trace s)); [by apply well_owned_state|].
  destruct Ha as [-> | [Hlive Hun]]; [by left | right].
  split; [done|]. intros q _ Hq. by apply (Hun q).
Qed.

(** Wrapping an address that an object already manages breaks the
    discipline. *)
Theorem wrapUnique_of_owned_aliases (s : state) (q : loc) (a : addr) :
  holds s q a → a ≠ nullptr →
  ∃ p s', wrapUnique a s = Done p s' ∧ ¬ unique_owners s'.
Proof.
  intros Hq Ha. eexists _, _. split; [reflexivity|]. simpl.
  intros Hu. apply Ha.
  apply (Hu (fresh (dom (objs s))) q a).
  - intros Heq. apply (is_fresh (dom (objs s))). rewrite Heq.
    apply elem_of_dom. by eexists.
  - apply holds_insert_eq.
  - apply holds_insert_ne; [|done].
    intros Heq. apply (is_fresh (dom (objs s))). rewrite Heq.
    apply elem_of_dom. by eexists.
Qed.

Lemma destroy_count_app a t1 t2 :
  destroy_count a (t1 ++ t2) = (destroy_count a t1 + destroy_count a t2)%nat.
Proof. unfold destroy_count. by rewrite List.filter_app, length_app. Qed.

Lemma dtor_events_count f p a c :
  destroy_count c (EvDeletePtr f a ::
                   (if a =? nullptr then [] else [EvDestroy f a])
                   ++ [EvStore p nullptr])
  = (if (negb (a =? nullptr)) && (a =? c) then 1%nat else 0%nat).
Proof.
  unfold destroy_count. destruct (a =? nullptr); simpl; [done|].
  by destruct (a =? c).
Qed.

Lemma dtor_twice_run f s p q a b :
  p ≠ q → holds s p a → holds s q b →
  ∃ s', (unique_ptr_dtor f p ;; unique_ptr_dtor f q) s = Done tt s' ∧
        trace s' = trace s ++
          (EvDeletePtr f a :: (if a =? nullptr then [] else [EvDestroy f a])
             ++ [EvStore p nullptr]) ++
          (EvDeletePtr f b :: (if b =? nullptr then [] else [EvDestroy f b])
             ++ [EvStore q nullptr]).
Proof.
  intros Hne Hp Hq. eexists. split.
  { rewrite (bind_done _ _ _ _ _ (unique_ptr_dtor_run f s p a Hp)).
    apply unique_ptr_dtor_run. unfold holds; simpl.
    by rewrite lookup_delete_ne. }
  simpl. by rewrite <- app_assoc.
Qed.

(** Lines 156-158: when two objects manage the same non-null address,
    destroying both destroys the value twice. *)
Theorem aliasing_double_destruction
    (f : delete_form) (s : state) (p q : loc) (a : addr) :
  p ≠ q → holds s p a → holds s q a → a ≠ nullptr →
  ∃ s' evs, (unique_ptr_dtor f p ;; unique_ptr_dtor f q) s = Done tt s' ∧
            trace s' = trace s ++ evs ∧
            destroy_count a evs = 2%nat.
Proof.
  intros Hne Hp Hq Ha.
  destruct (dtor_twice_run f s p q a a Hne Hp Hq) as (s' & Hrun & Htr).
  eexists s', _. split; [exact Hrun|]. split; [exact Htr|].
  rewrite destroy_count_app, !dtor_events_count.
  apply N.eqb_neq in Ha. by rewrite Ha, N.eqb_refl.
Qed.

(** Under the discipline, destroying two distinct objects destroys no
    value more than once. *)
Theorem unique_owners_single_destruction
    (f : delete_form) (s : state) (p q : loc) (a b : addr) :
  unique_owners s → p ≠ q → holds s p a → holds s q b →
  ∃ s' evs, (unique_ptr_dtor f p ;; unique_ptr_dtor f q) s = Done tt s' ∧
            trace s' = trace s ++ evs ∧
            ∀ c, (destroy_count c evs ≤ 1)%nat.
Proof.
  intros Hu Hne Hp Hq.
  destruct (dtor_twice_run f s p q a b Hne Hp Hq) as (s' & Hrun & Htr).
  eexists s', _. split; [exact Hrun|]. split; [exact Htr|].
  intros c. rewrite destroy_count_app, !dtor_events_count.
  destruct (a =? nullptr) eqn:Ha, (b =? nullptr) eqn:Hb,
    (a =? c) eqn:Hac, (b =? c) eqn:Hbc; simpl; try lia.
  apply N.eqb_eq in Hac, Hbc. subst a b.
  apply N.eqb_neq in Ha. by destruct Ha, (Hu p q c).
Qed.

(** *** Round trips and compositions *)

Lemma swap_member_holds m h t a b x y :
  m !! a = Some (UniquePtr x) → m !! b = Some (UniquePtr y) →
  holds (State (<[b := UniquePtr x]> (<[a := UniquePtr y]> m)) h t) a y ∧
  holds (State (<[b := UniquePtr x]> (<[a := UniquePtr y]> m)) h t) b x.
Proof.
  intros Ha Hb. split; [|apply holds_insert_eq].
  destruct (decide (a = b)) as [-> | Hne].
  - assert (x = y) as -> by congruence. apply holds_insert_eq.
  - apply holds_insert_ne; [done|]. apply lookup_insert_eq.
Qed.

(** Swapping twice puts every object back to the address it held; no
    value is touched. *)
Theorem swap_twice_restores (s : state) (a b : loc) (x y : addr) :
  holds s a x → holds s b y →
  ∃ s', (swap a b ;; swap a b) s = Done tt s' ∧
        objs s' = objs s ∧
        heap s' = heap s.
Proof.
  intros Ha Hb.
  destruct (swap_member_holds (objs s) (heap s)
              (trace s ++ [EvStore a y; EvStore b x]) a b x y Ha Hb)
    as [Ha1 Hb1].
  eexists. split.
  { unfold swap. rewrite (bind_done _ _ _ _ _ (swap_member_run s a b x y Ha Hb)).
    by apply swap_member_run. }
  simpl. split; [|done].
  apply map_eq. intros k.
  destruct (decide (k = b)) as [-> | Hkb].
  { by rewrite lookup_insert_eq. }
  rewrite lookup_insert_ne by done.
  destruct (decide (k = a)) as [-> | Hka].
  { by rewrite lookup_insert_eq. }
  by rewrite !lookup_insert_ne.
Qed.

(** [p.reset(p.release())] puts [p] back: the objects and the heap are
    as before, and the deleter has only seen null. *)
Theorem release_reset_round_trip
    (f : delete_form) (s : state) (p : loc) (a : addr) :
  holds s p a →
  ∃ s', (x ← release p; reset f p x) s = Done tt s' ∧
        objs s' = objs s ∧
        heap s' = heap s ∧
        trace s' = trace s ++ [EvStore p nullptr; EvStore p a;
                               EvDeletePtr f nullptr].
Proof.
  intros H. eexists. split.
  { rewrite (bind_done _ _ _ _ _ (release_run _ _ _ H)).
    apply reset_run, holds_insert_eq. }
  simpl. repeat split.
  - rewrite insert_insert_eq. by apply insert_id.
  - by rewrite <- app_assoc.
Qed.

(** [wrapUnique(a)] followed by the destruction of the returned object
    leaves the objects as they were and has destroyed the value at a
    non-null [a] exactly once. *)
Theorem wrap_destroy_round_trip (f : delete_form) (s : state) (a : addr) :
  ∃ s' evs, (p ← wrapUnique a; unique_ptr_dtor f p) s = Done tt s' ∧
            objs s' = objs s ∧
            heap s' = (if a =? nullptr then heap s else delete a (heap s)) ∧
            trace s' = trace s ++ evs ∧
            destroy_count a evs = (if a =? nullptr then 0%nat else 1%nat).
Proof.
  set (p := fresh (dom (objs s))).
  assert (objs s !! p = None) as Hfresh.
  { apply not_elem_of_dom, is_fresh. }
  eexists _, _. split.
  { erewrite bind_done; [|reflexivity].
    apply (unique_ptr_dtor_run f _ _ a), holds_insert_eq. }
  simpl. repeat split.
  - rewrite delete_insert_eq. by apply delete_id.
  - rewrite dtor_events_count. rewrite N.eqb_refl.
    by destruct (a =? nullptr).
Qed.

(** [q = move(p)] into an existing object [q] whose old address is null
    or differs from [p]'s: the temporary returned by [move] is assigned to
    [q] and destroyed.  Afterwards [p] is null, [q] holds what [p] held, no
    other object has changed or appeared, and only [q]'s old value has been
    destroyed. *)
Theorem move_into_existing_object
    (dbg : bool) (f : delete_form) (s : state) (p q : loc) (a old : addr) :
  p ≠ q → holds s p a → holds s q old →
  old = nullptr ∨ old ≠ a →
  ∃ s' evs,
    (t ← move p; operator_assign_move dbg f q t ;; unique_ptr_dtor f t) s
      = Done tt s' ∧
    objs s' = <[q := UniquePtr a]> (<[p := UniquePtr nullptr]> (objs s)) ∧
    heap s' = (if old =? nullptr then heap s else delete old (heap s)) ∧
    trace s' = trace s ++ evs ∧
    (∀ c, c ≠ old → destroy_count c evs = 0%nat).
Proof.
  intros Hne Hp Hq Hold.
  set (m1 := <[p := UniquePtr nullptr]> (objs s)).
  set (t := fresh (dom m1)).
  assert (m1 !! t = None) as Ht by apply not_elem_of_dom, is_fresh.
  assert (m1 !! q = Some (UniquePtr old)) as Hq1.
  { unfold m1. by rewrite lookup_insert_ne. }
  assert (q ≠ t) as Hqt by congruence.
  set (s1 := State (<[t := UniquePtr a]> m1) (heap s)
                   (trace s ++ [EvStore p nullptr])).
  assert (move p s = Done t s1) as Hmove.
  { unfold move. by rewrite (bind_done _ _ _ _ _ (release_run _ _ _ Hp)). }
  assert (holds s1 q old) as Hq2.
  { apply holds_insert_ne; [done|exact Hq1]. }
  assert (holds s1 t a) as Ht2 by apply holds_insert_eq.
  pose proof (operator_assign_move_run dbg f s1 q t old a Hqt Hq2 Ht2) as Hasg.
  eexists _, _. split.
  { rewrite (bind_done _ _ _ _ _ Hmove).
    erewrite bind_done; cycle 1.
    { apply Hasg. intros _. destruct Hold; [by left | right; congruence]. }
    apply (unique_ptr_dtor_run f _ t nullptr).
    apply holds_insert_ne; [done|]. apply lookup_insert_eq. }
  simpl. split; [|split; [done|split]].
  - apply map_eq. intros k.
    destruct (decide (k = t)) as [-> | Hkt].
    { rewrite lookup_delete_eq, lookup_insert_ne by done. by rewrite Ht. }
    rewrite lookup_delete_ne by done.
    destruct (decide (k = q)) as [-> | Hkq].
    { by rewrite !lookup_insert_eq. }
    by rewrite !(lookup_insert_ne _ q), !(lookup_insert_ne _ t).
  - rewrite <- !app_assoc. reflexivity.
  - intros c Hc. unfold destroy_count. simpl.
    destruct (old =? nullptr); simpl; [done|].
    apply not_eq_sym, N.eqb_neq in Hc. by rewrite Hc.
Qed.

(** *** The trait shims and the deleter *)


Lemma TArr_neq t : TArr t ≠ t.
Proof. induction t; congruence. Qed.

Lemma TArrN_neq t n : TArrN t n ≠ t.
Proof. revert n. induction t; intros; congruence. Qed.

(** [remove_extent] changes exactly the types [is_array] accepts, and it
    strips one extent: an array type is its result with one extent put
    back. *)
Theorem remove_extent_is_array (T : ctype) :
  (remove_extent T = T ↔ value (is_array T) = false) ∧
  (value (is_array T) = true →
     T = TArr (remove_extent T) ∨ ∃ n, T = TArrN (remove_extent T) n).
Proof.
  split; [split|].
  - destruct T; simpl; try done.
    + intros H. by destruct (TArr_neq T).
    + intros H. by destruct (TArrN_neq T n).
  - by destruct T.
  - destruct T; simpl; try done; [by left | right; by eexists].
Qed.

(** Whenever [OwnedPtrDeleter<T>::deletePtr] instantiates, [T] is not a
    sized array, the type it deletes is complete with a non-zero size, and
    the delete-expression is the array form exactly when [T] is an array
    type. *)
Theorem deleter_selection_sound
    (sizeof : ctype → option N) (T : ctype) (f : delete_form) :
  OwnedPtrDeleter_deletePtr sizeof T = Compiled f →
  (∀ t n, T ≠ TArrN t n) ∧
  (∃ n, sizeof (remove_extent T) = Some n ∧ 0 < n) ∧
  (f = ArrayDelete ↔ value (is_array T) = true).
Proof.
  unfold OwnedPtrDeleter_deletePtr, sizeof_expr.
  destruct T; simpl.
  1-3: destruct (sizeof _) as [n|] eqn:Hs; simpl; [|done];
       destruct (0 <? n) eqn:Hn; simpl; [|done];
       intros [= <-]; repeat split; try done;
       exists n; split; [done|by apply N.ltb_lt].
  - destruct (sizeof T) as [n|] eqn:Hs; simpl; [|done].
    destruct (0 <? n) eqn:Hn; simpl; [|done].
    intros [= <-]. repeat split; try done.
    exists n. split; [done|by apply N.ltb_lt].
  - destruct (sizeof T) as [k|]; simpl; [|done].
    by destruct (k <? 0).
Qed.

(** A sized array type is rejected whatever its element type and bound,
    and an incomplete type is rejected too. *)
Theorem deleter_rejects
    (sizeof : ctype → option N) (T : ctype) :
  (∀ n, ∃ msg, OwnedPtrDeleter_deletePtr sizeof (TArrN T n) = HardError msg) ∧
  (sizeof (remove_extent T) = None →
     ∃ msg, OwnedPtrDeleter_deletePtr sizeof T = HardError msg).
Proof.
  unfold OwnedPtrDeleter_deletePtr, sizeof_expr. split.
  - intros n. destruct (sizeof T) as [k|]; simpl; [|by eexists].
    destruct (k <? 0); simpl; by eexists.
  - destruct T; simpl; intros ->; simpl; by eexists.
Qed.

(** *** Conversions and comparisons at compile time *)


(** Between non-array types with [U*] convertible to [T*], both
    converting members instantiate, and to the code of the same-type move
    constructor and move assignment: the conversion transfers the address
    exactly as a move does. *)
Theorem compatible_conversion_compiles
    (converts : ctype → ctype → bool) (dbg : bool)
    (sizeof : ctype → option N) (T U : ctype) (n : N) :
  value (is_array T) = false → value (is_array U) = false →
  converts (TPtr U) (TPtr T) = true →
  sizeof T = Some n → 0 < n →
  converting_ctor converts T U = Candidate (Compiled unique_ptr_move) ∧
  converting_assign converts dbg sizeof T U
    = Candidate (Compiled (operator_assign_move dbg ScalarDelete)).
Proof.
  intros HT HU Hc Hs Hn.
  assert (remove_extent T = T) as HrT by by destruct T.
  assert (remove_extent U = U) as HrU by by destruct U.
  apply N.ltb_lt in Hn.
  unfold converting_ctor, converting_assign, enable_if, PtrType,
    implicit_conversion, is_convertible, helper.
  rewrite HrT, HrU, Hc, HT. simpl. split; [done|].
  unfold OwnedPtrDeleter_deletePtr, sizeof_expr.
  destruct T; try done; rewrite Hs; simpl; by rewrite Hn.
Qed.

(** [operator[]] instantiates exactly for array types. *)
Theorem index_requires_array (dbg : bool) (T : ctype) :
  (value (is_array T) = true →
     operator_index_inst dbg T = Compiled (operator_index dbg)) ∧
  (value (is_array T) = false →
     operator_index_inst dbg T
       = HardError "elements access is possible for arrays only").
Proof. unfold operator_index_inst. split; by intros ->. Qed.

(** A comparison with exactly one [unique_ptr] operand always compiles,
    for any pointee types, and resolves to the free operator with the
    matching operand order; it is never ambiguous. *)
Theorem raw_comparison_resolves (sizeof_ptr : ctype → N) (T U : ctype) :
  compile_eq sizeof_ptr (OpUniquePtr T) (OpRawPtr U)
    = Compiled (CmpLeft operator_eq_l) ∧
  compile_eq sizeof_ptr (OpRawPtr T) (OpUniquePtr U)
    = Compiled (CmpRight operator_eq_r) ∧
  compile_ne sizeof_ptr (OpUniquePtr T) (OpRawPtr U)
    = Compiled (CmpLeft operator_ne_l) ∧
  compile_ne sizeof_ptr (OpRawPtr T) (OpUniquePtr U)
    = Compiled (CmpRight operator_ne_r).
Proof. repeat split. Qed.

(** *** The further properties at concrete inputs *)

Lemma s0_holds p a :
  holds s0 p a →
  (p = 1%positive ∧ a = 100) ∨ (p = 2%positive ∧ a = 200) ∨
  (p = 3%positive ∧ a = nullptr).
Proof.
  unfold holds, s0; simpl.
  rewrite !lookup_insert_Some, lookup_singleton_Some.
  intros [[<- [= <-]] | [_ [[<- [= <-]] | [_ [<- [= <-]]]]]]; auto.
Qed.

Lemma s0_well_owned : well_owned s0.
Proof.
  split.
  - intros p q a Hne Hp Hq.
    destruct (s0_holds _ _ Hp) as [[-> ->] | [[-> ->] | [-> ->]]];
      destruct (s0_holds _ _ Hq) as [[-> ?] | [[-> ?] | [-> ?]]];
      done.
  - intros p a Hp Ha.
    destruct (s0_holds _ _ Hp) as [[-> ->] | [[-> ->] | [-> ->]]];
      [by eexists | by eexists | done].
Qed.

Lemma s_spare_well_owned : well_owned s_spare.
Proof.
  assert (∀ p a, holds s_spare p a → p = 1%positive ∧ a = 100) as Hh.
  { unfold holds, s_spare; simpl. intros p a.
    rewrite lookup_singleton_Some. by intros [<- [= <-]]. }
  split.
  - intros p q a Hne Hp Hq.
    destruct (Hh _ _ Hp) as [-> _], (Hh _ _ Hq) as [-> _]. done.
  - intros p a Hp _. destruct (Hh _ _ Hp) as [_ ->]. by eexists.
Qed.

Lemma s_spare_unowned_300 : unowned s_spare 300.
Proof.
  intros q. unfold holds, s_spare; simpl.
  rewrite lookup_singleton_Some. by intros [_ [=]].
Qed.

Lemma bool_conversion_witness :
  ∃ b, operator_bool 3%positive s0 = Done b s0 ∧
       (b = true ↔ nullptr ≠ nullptr) ∧
       operator_not 3%positive s0 = Done (negb b) s0.
Proof. apply (bool_conversion s0 3%positive nullptr). reflexivity. Defined.

Lemma deref_checked_witness :
  (∀ dbg, operator_deref dbg 1%positive s0 = Done (Deref 100) s0 ∧
          operator_arrow dbg 1%positive s0 = Done 100 s0) ∧
  (operator_deref true 3%positive s0 = Aborted ∧
   operator_arrow true 3%positive s0 = Aborted ∧
   operator_deref false 3%positive s0 = Done (Deref nullptr) s0 ∧
   operator_arrow false 3%positive s0 = Done nullptr s0).
Proof.
  split.
  - apply (deref_checked s0 1%positive 100); [reflexivity | discriminate].
  - apply (deref_checked s0 3%positive nullptr); reflexivity.
Defined.

Lemma index_checked_witness :
  (∀ dbg, operator_index dbg 1%positive 2 s0 = Done (Subscript 100 2) s0) ∧
  operator_index true 1%positive (-1) s0 = Aborted ∧
  operator_index false 1%positive (-1) s0 = Done (Subscript 100 (-1)) s0.
Proof.
  split; [|split].
  - apply (index_checked s0 1%positive 100 2); [reflexivity | discriminate | lia].
  - apply (index_checked s0 1%positive 100 (-1)); [reflexivity | right; lia].
  - apply (index_checked s0 1%positive 100 (-1)). reflexivity.
Defined.

Lemma dtor_destroys_once_witness :
  ∃ s' evs, unique_ptr_dtor ArrayDelete 2%positive s0 = Done tt s' ∧
            objs s' = delete 2%positive (objs s0) ∧
            heap s' = delete 200 (heap s0) ∧
            trace s' = trace s0 ++ evs ∧
            evs = [EvDeletePtr ArrayDelete 200; EvDestroy ArrayDelete 200;
                   EvStore 2%positive nullptr] ∧
            destroy_count 200 evs = 1%nat ∧
            (∀ b, b ≠ 200 → destroy_count b evs = 0%nat).
Proof.
  apply (dtor_destroys_once ArrayDelete s0 2%positive 200);
    [reflexivity | discriminate].
Defined.


Lemma reset_to_self_dangles_witness :
  ∃ s', (b ← get 1%positive; reset ScalarDelete 1%positive b) s0 = Done tt s' ∧
        holds s' 1%positive 100 ∧
        heap s' !! 100 = None ∧
        ¬ owned_live s'.
Proof.
  apply (reset_to_self_dangles ScalarDelete s0 1%positive 100);
    [reflexivity | discriminate].
Defined.

Lemma self_move_assign_general_witness :
  (operator_assign_move true ScalarDelete 1%positive 1%positive s0 = Aborted ∧
   ∃ s', operator_assign_move false ScalarDelete 1%positive 1%positive s0
           = Done 1%positive s' ∧
         holds s' 1%positive 100 ∧ heap s' !! 100 = None) ∧
  (∀ dbg, ∃ s', operator_assign_move dbg ScalarDelete 3%positive 3%positive s0
                  = Done 3%positive s' ∧
                objs s' = objs s0 ∧ heap s' = heap s0).
Proof.
  split.
  - apply (self_move_assign_general ScalarDelete s0 1%positive 100);
      [reflexivity | discriminate].
  - apply (self_move_assign_general ScalarDelete s0 3%positive nullptr);
      reflexivity.
Defined.

Lemma release_keeps_ownership_witness :
  ∃ s', release 1%positive s0 = Done 100 s' ∧
        well_owned s' ∧
        (100 ≠ nullptr → unowned s' 100 ∧ is_Some (heap s' !! 100)).
Proof.
  apply (release_keeps_ownership s0 1%positive 100);
    [exact s0_well_owned | reflexivity].
Defined.


Lemma move_assign_keeps_ownership_witness :
  ∃ s', operator_assign_move true ScalarDelete 1%positive 2%positive s0
          = Done 1%positive s' ∧
        holds s' 1%positive 200 ∧ holds s' 2%positive nullptr ∧
        (100 ≠ nullptr → heap s' !! 100 = None) ∧
        well_owned s'.
Proof.
  apply (move_assign_keeps_ownership true ScalarDelete s0
           1%positive 2%positive 100 200);
    [exact s0_well_owned | discriminate | reflexivity | reflexivity].
Defined.

Lemma swap_keeps_ownership_witness :
  ∃ s', swap 1%positive 2%positive s0 = Done tt s' ∧ well_owned s'.
Proof.
  apply (swap_keeps_ownership s0 1%positive 2%positive 100 200);
    [exact s0_well_owned | reflexivity | reflexivity].
Defined.

Lemma dtor_keeps_ownership_witness :
  ∃ s', unique_ptr_dtor ScalarDelete 1%positive s0 = Done tt s' ∧
        objs s' !! 1%positive = None ∧
        (100 ≠ nullptr → heap s' !! 100 = None) ∧
        well_owned s'.
Proof.
  apply (dtor_keeps_ownership ScalarDelete s0 1%positive 100);
    [exact s0_well_owned | reflexivity].
Defined.

Lemma reset_keeps_ownership_witness :
  ∃ s', reset ScalarDelete 1%positive 300 s_spare = Done tt s' ∧
        holds s' 1%positive 300 ∧ well_owned s'.
Proof.
  apply (reset_keeps_ownership ScalarDelete s_spare 1%positive 100 300);
    [exact s_spare_well_owned | reflexivity |].
  right. split; [by eexists | exact s_spare_unowned_300].
Defined.

Lemma wrapUnique_keeps_ownership_witness :
  ∃ p s', wrapUnique 300 s_spare = Done p s' ∧
          holds s' p 300 ∧ well_owned s'.
Proof.
  apply (wrapUnique_keeps_ownership s_spare 300); [exact s_spare_well_owned|].
  right. split; [by eexists | exact s_spare_unowned_300].
Defined.

Lemma wrapUnique_of_owned_aliases_witness :
  ∃ p s', wrapUnique 100 s0 = Done p s' ∧ ¬ unique_owners s'.
Proof.
  apply (wrapUnique_of_owned_aliases s0 1%positive 100);
    [reflexivity | discriminate].
Defined.

Lemma aliasing_double_destruction_witness :
  ∃ s' evs, (unique_ptr_dtor ScalarDelete 1%positive ;;
             unique_ptr_dtor ScalarDelete 2%positive) s_aliased = Done tt s' ∧
            trace s' = trace s_aliased ++ evs ∧
            destroy_count 100 evs = 2%nat.
Proof.
  apply (aliasing_double_destruction ScalarDelete s_aliased
           1%positive 2%positive 100);
    [discriminate | reflexivity | reflexivity | discriminate].
Defined.

Lemma unique_owners_single_destruction_witness :
  ∃ s' evs, (unique_ptr_dtor ScalarDelete 1%positive ;;
             unique_ptr_dtor ScalarDelete 2%positive) s0 = Done tt s' ∧
            trace s' = trace s0 ++ evs ∧
            ∀ c, (destroy_count c evs ≤ 1)%nat.
Proof.
  apply (unique_owners_single_destruction ScalarDelete s0
           1%positive 2%positive 100 200);
    [exact (proj1 s0_well_owned) | discriminate | reflexivity | reflexivity].
Defined.

Lemma swap_twice_restores_witness :
  ∃ s', (swap 1%positive 2%positive ;; swap 1%positive 2%positive) s0
          = Done tt s' ∧
        objs s' = objs s0 ∧
        heap s' = heap s0.
Proof.
  apply (swap_twice_restores s0 1%positive 2%positive 100 200); reflexivity.
Defined.

Lemma release_reset_round_trip_witness :
  ∃ s', (x ← release 1%positive; reset ScalarDelete 1%positive x) s0
          = Done tt s' ∧
        objs s' = objs s0 ∧
        heap s' = heap s0 ∧
        trace s' = trace s0 ++ [EvStore 1%positive nullptr;
                                EvStore 1%positive 100;
                                EvDeletePtr ScalarDelete nullptr].
Proof.
  apply (release_reset_round_trip ScalarDelete s0 1%positive 100). reflexivity.
Defined.

Lemma move_into_existing_object_witness :
  ∃ s' evs,
    (t ← move 1%positive;
     operator_assign_move true ScalarDelete 2%positive t ;;
     unique_ptr_dtor ScalarDelete t) s0 = Done tt s' ∧
    objs s' = <[2%positive := UniquePtr 100]>
                (<[1%positive := UniquePtr nullptr]> (objs s0)) ∧
    heap s' = delete 200 (heap s0) ∧
    trace s' = trace s0 ++ evs ∧
    (∀ c, c ≠ 200 → destroy_count c evs = 0%nat).
Proof.
  apply (move_into_existing_object true ScalarDelete s0
           1%positive 2%positive 100 200);
    [discriminate | reflexivity | reflexivity | right; discriminate].
Defined.

Lemma remove_extent_is_array_witness :
  remove_extent (TArrN Base 3) = Base ∧
  (TArr Base = TArr (remove_extent (TArr Base)) ∨
   ∃ n, TArr Base = TArrN (remove_extent (TArr Base)) n).
Proof.
  split; [reflexivity|].
  apply (remove_extent_is_array (TArr Base)). reflexivity.
Defined.

Lemma deleter_selection_sound_witness :
  (∀ t n, TArr Base ≠ TArrN t n) ∧
  (∃ n, sizeof_complete (remove_extent (TArr Base)) = Some n ∧ 0 < n) ∧
  (ArrayDelete = ArrayDelete ↔ value (is_array (TArr Base)) = true).
Proof.
  apply (deleter_selection_sound sizeof_complete (TArr Base) ArrayDelete).
  reflexivity.
Defined.

Lemma deleter_rejects_witness :
  (∀ n, ∃ msg, OwnedPtrDeleter_deletePtr (λ _, None) (TArrN Base n)
                 = HardError msg) ∧
  ∃ msg, OwnedPtrDeleter_deletePtr (λ _, None) Base = HardError msg.
Proof.
  split.
  - apply (deleter_rejects (λ _, None) Base).
  - apply (deleter_rejects (λ _, None) Base). reflexivity.
Defined.


Lemma compatible_conversion_compiles_witness :
  converting_ctor hierarchy Base Derived = Candidate (Compiled unique_ptr_move) ∧
  converting_assign hierarchy false sizeof_complete Base Derived
    = Candidate (Compiled (operator_assign_move false ScalarDelete)).
Proof.
  apply (compatible_conversion_compiles hierarchy false sizeof_complete
           Base Derived 4); reflexivity.
Defined.
